(** * insurance-claim-ai: the ingestion pipeline and its admission gate

    A shallow embedding of [services.py] (field parser, text extractor),
    [rate_limiter.py] (sliding-window admission) and of the two handlers of
    [main.py] that drive them ([upload_file], [analyze_claim]), followed by
    the properties established about them.

    Conventions.
    - A Python [str] is a [string] holding the bytes of its UTF-8 form.
      The field parser reads it as a sequence of code points; what [re]
      and [float] need to know of the code points beyond ASCII comes from
      the character database, a component of the [World].  [str.lower],
      which the code applies to file extensions only, is modelled on the
      ASCII letters.
    - Python exceptions are values of [exn]; a computation that may raise
      has type [result A].
    - [time.time()] readings are rationals (seconds).
    - Python [float]s are IEEE-754 binary64 values, [spec_float] with
      [prec = 53] and [emax = 1024]. *)

From Stdlib Require Import ZArith QArith Lqa Lia List Ascii String Bool.
From Stdlib Require Import SpecFloat.
From stdpp Require Import gmap strings list fin_maps pretty.
Import ListNotations.

Local Open Scope Z_scope.

(* ===================================================================== *)
(** * Python runtime fragments                                            *)
(* ===================================================================== *)

Module Py.

(** The [detail] payload of a FastAPI [HTTPException]: either a plain
    string or the [{"error": ..., "message": ...}] dictionary. *)
Inductive detail : Type :=
| DStr (s : string)
| DErr (error message : string).

(** The exceptions that occur in the modelled code.  All of them derive
    from [Exception], so [except Exception] catches every one. *)
Inductive exn : Type :=
| HTTPException (status_code : Z) (d : detail)
| AttributeError (msg : string)
| ValueError (msg : string)
| OSError (msg : string)
| LibraryError (msg : string).

Inductive result (A : Type) : Type :=
| Ok (a : A)
| Raise (e : exn).
Arguments Ok {A} a.
Arguments Raise {A} e.

Definition bind {A B} (r : result A) (k : A -> result B) : result B :=
  match r with
  | Ok a => k a
  | Raise e => Raise e
  end.

Notation "x <- m ;; k" := (bind m (fun x => k))
  (at level 100, m at next level, right associativity).

(** [try: body except Exception as e: handler(e)] *)
Definition try_except {A} (body : result A) (handler : exn -> result A)
  : result A :=
  match body with
  | Ok a => Ok a
  | Raise e => handler e
  end.

(** A list comprehension whose element expression may raise: elements are
    evaluated left to right and the first exception aborts the whole list. *)
Fixpoint comprehension {A B} (f : A -> result B) (xs : list A)
  : result (list B) :=
  match xs with
  | [] => Ok []
  | x :: xs' =>
      y <- f x ;;
      ys <- comprehension f xs' ;;
      Ok (y :: ys)
  end.

Definition is_ok {A} (r : result A) : bool :=
  match r with Ok _ => true | Raise _ => false end.

(** ** Characters and strings *)

Definition code (a : ascii) : N := N_of_ascii a.

Definition is_upper (a : ascii) : bool := ((65 <=? code a) && (code a <=? 90))%N.
Definition is_lower (a : ascii) : bool := ((97 <=? code a) && (code a <=? 122))%N.

(** [str.lower] on one ASCII character. *)
Definition lower_char (a : ascii) : ascii :=
  if is_upper a then ascii_of_N (code a + 32) else a.

Definition chars (s : string) : list ascii := list_ascii_of_string s.
Definition str (l : list ascii) : string := string_of_list_ascii l.

Definition lower (s : string) : string := str (map lower_char (chars s)).

(** [sep.join(parts)] *)
Fixpoint join (sep : string) (parts : list string) : string :=
  match parts with
  | [] => EmptyString
  | [p] => p
  | p :: rest => (p ++ sep ++ join sep rest)%string
  end.

(** ** Floats

    CPython converts a decimal numeral with correct rounding to
    nearest-even, which is what the quotient of the two exact integers
    computes. *)

Definition prec : Z := 53.
Definition emax : Z := 1024.

Definition SF_of_N (n : N) : spec_float :=
  match n with
  | N0 => S754_zero false
  | Npos p => S754_finite false p 0
  end.

(** The binary64 nearest to [n / 10^k]. *)
Definition float_of_decimal (n : N) (k : nat) : spec_float :=
  SFdiv prec emax (SF_of_N n) (SF_of_N (10 ^ N.of_nat k)).

(** [float(z)] for an integer [z]. *)
Definition float_of_Z (z : Z) : spec_float := binary_normalize prec emax z 0 false.

(** The comparison [0.0 <= x] on floats. *)
Definition float_nonneg (x : spec_float) : bool := SFleb (S754_zero false) x.

End Py.

(* ===================================================================== *)
(** * Code points: the character database, UTF-8, [float] on text         *)
(* ===================================================================== *)

Module Uni.
Import Py.
Local Open Scope N_scope.

(** The properties of the code points from 128 on that [re] and [float]
    look up; the interpreter reads them from its copy of the Unicode
    character database.  Below 128 the properties are those of ASCII and
    are spelled out in the definitions that follow. *)
Record Unicode : Type := {
  (** [str.isspace] *)
  uni_isspace : N -> bool;
  (** [str.isalnum] *)
  uni_isalnum : N -> bool;
  (** the value of a decimal digit; [str.isdecimal] holds of the code
      points that have one *)
  uni_todecimal : N -> option N;
  (** the simple lower-case mapping *)
  uni_tolower : N -> N
}.

(** The class [\s] of a [str] pattern: [str.isspace].  In ASCII these are
    TAB, LF, VT, FF, CR, the four information separators 0x1c-0x1f and
    the space. *)
Definition is_space (U : Unicode) (c : N) : bool :=
  if c <? 128 then
    (9 <=? c) && (c <=? 13) || (28 <=? c) && (c <=? 31) || (c =? 32)
  else uni_isspace U c.

(** The value of [c] as a decimal digit. *)
Definition todecimal (U : Unicode) (c : N) : option N :=
  if c <? 128 then
    if (48 <=? c) && (c <=? 57) then Some (c - 48) else None
  else uni_todecimal U c.

(** The class [\d] of a [str] pattern: [str.isdecimal]. *)
Definition is_digit (U : Unicode) (c : N) : bool :=
  match todecimal U c with Some _ => true | None => false end.

(** The class [\w] of a [str] pattern: [str.isalnum], or the underscore. *)
Definition is_word (U : Unicode) (c : N) : bool :=
  (if c <? 128 then
     (48 <=? c) && (c <=? 57) || (65 <=? c) && (c <=? 90)
     || (97 <=? c) && (c <=? 122)
   else uni_isalnum U c)
  || (c =? 95).

(** Lower case of the ASCII letters, every other code point unchanged. *)
Definition lower_code (c : N) : N :=
  if (65 <=? c) && (c <=? 90) then c + 32 else c.

(** The simple lower-case mapping, as [re.IGNORECASE] applies it to the
    subject. *)
Definition tolower (U : Unicode) (c : N) : N :=
  if c <? 128 then lower_code c else uni_tolower U c.

(** ** Strings as code points

    A [str] is held as a [string] of the bytes of its UTF-8 form (with a
    surrogate encoded like any other code point); [codepoints] reads the
    characters back.  A byte that belongs to no well-formed sequence
    stands for the code point [U+DC00 + b], as with the [surrogateescape]
    handler. *)

Definition continuation (b : N) : bool := (128 <=? b) && (b <? 192).

Definition stray (b : N) : N := 56320 + b.

Fixpoint decode (bs : list N) : list N :=
  match bs with
  | [] => []
  | b0 :: r =>
      if b0 <? 128 then b0 :: decode r
      else
        match r with
        | b1 :: r1 =>
            let c2 := (b0 - 192) * 64 + (b1 - 128) in
            if (192 <=? b0) && (b0 <? 224) && continuation b1 && (128 <=? c2)
            then c2 :: decode r1
            else
              match r1 with
              | b2 :: r2 =>
                  let c3 := (b0 - 224) * 4096 + (b1 - 128) * 64 + (b2 - 128) in
                  if (224 <=? b0) && (b0 <? 240) && continuation b1
                     && continuation b2 && (2048 <=? c3)
                  then c3 :: decode r2
                  else
                    match r2 with
                    | b3 :: r3 =>
                        let c4 := (b0 - 240) * 262144 + (b1 - 128) * 4096
                                  + (b2 - 128) * 64 + (b3 - 128) in
                        if (240 <=? b0) && (b0 <? 248) && continuation b1
                           && continuation b2 && continuation b3
                           && (65536 <=? c4) && (c4 <? 1114112)
                        then c4 :: decode r3
                        else stray b0 :: decode r
                    | [] => stray b0 :: decode r
                    end
              | [] => stray b0 :: decode r
              end
        | [] => [stray b0]
        end
  end.

(** The UTF-8 form of one code point. *)
Definition encode (c : N) : list N :=
  if c <? 128 then [c]
  else if c <? 2048 then [192 + c / 64; 128 + c mod 64]
  else if c <? 65536 then
    [224 + c / 4096; 128 + (c / 64) mod 64; 128 + c mod 64]
  else
    [240 + c / 262144; 128 + (c / 4096) mod 64; 128 + (c / 64) mod 64;
     128 + c mod 64].

(** The characters of a [str]. *)
Definition codepoints (s : string) : list N := decode (map code (chars s)).

(** The [str] with the given characters. *)
Definition utf8 (l : list N) : string :=
  str (map ascii_of_N (flat_map encode l)).

(** ** [float(s)]

    [float] first maps the characters to ASCII, a decimal digit of any
    script becoming the ASCII digit of its value.  The numerals handled
    here are the plain decimal ones: an optional sign, digits, and
    optionally a point followed by digits, with at least one digit
    overall.  (Exponents, underscores, surrounding blanks, [inf] and [nan]
    are outside this fragment; the parser never produces them.) *)

(** The values of the decimal digits among the characters of [s]. *)
Definition digits_of (U : Unicode) (s : list N) : list N :=
  omap (todecimal U) s.

Definition N_of_digits (ds : list N) : N :=
  fold_left (fun acc d => 10 * acc + d) ds 0.

(** Split at the first point: integer part and, when a point is present,
    the fraction part. *)
Fixpoint split_point (l : list N) : list N * option (list N) :=
  match l with
  | [] => ([], None)
  | a :: l' =>
      if a =? 46 then ([], Some l')
      else let '(ip, fp) := split_point l' in (a :: ip, fp)
  end.

Definition float_unsigned (U : Unicode) (l : list N) : result spec_float :=
  let '(ip, fp) := split_point l in
  let fr := default [] fp in
  if forallb (is_digit U) ip && forallb (is_digit U) fr
     && negb (Nat.eqb (length ip + length fr) 0)
  then Ok (float_of_decimal (N_of_digits (digits_of U (ip ++ fr))) (length fr))
  else Raise (ValueError "could not convert string to float").

Definition float (U : Unicode) (s : list N) : result spec_float :=
  match s with
  | a :: l =>
      if a =? 45 then x <- float_unsigned U l ;; Ok (SFopp x)
      else if a =? 43 then float_unsigned U l
      else float_unsigned U (a :: l)
  | [] => float_unsigned U []
  end.

(** [s.replace(",", "")] *)
Definition remove_commas (s : list N) : list N :=
  List.filter (fun a => negb (a =? 44)) s.

End Uni.

(* ===================================================================== *)
(** * The fragment of [re] used by the parser                             *)
(* ===================================================================== *)

Module Re.
Import Py Uni.

Inductive quant : Type := One | Opt | Star | Plus.

(** A pattern is a sequence of single-character classes, each with a
    greedy quantifier, and the two brackets of the capture group.  The
    subject is a sequence of code points. *)
Inductive elem : Type :=
| Atom (c : N -> bool) (q : quant)
| GroupOpen
| GroupClose.

(** State of group 1 during a match attempt: not entered, being filled
    (characters consumed so far, most recent first), or closed. *)
Inductive group : Type :=
| NotEntered
| Filling (acc : list N)
| Closed (s : list N).

Definition push (a : N) (g : group) : group :=
  match g with
  | Filling acc => Filling (a :: acc)
  | _ => g
  end.

Definition close (g : group) : group :=
  match g with
  | Filling acc => Closed (rev acc)
  | _ => g
  end.

(** Greedy repetition with backtracking: take one more character when the
    class allows and the rest of the pattern then succeeds, otherwise
    continue with the rest of the pattern from here. *)
Fixpoint star (c : N -> bool) (k : group -> list N -> option group)
  (g : group) (s : list N) : option group :=
  match s with
  | a :: s' =>
      if c a then
        match star c k (push a g) s' with
        | Some r => Some r
        | None => k g s
        end
      else k g s
  | [] => k g []
  end.

(** [match_here p g s]: match the whole of [p] at the start of [s]. *)
Fixpoint match_here (p : list elem) (g : group) (s : list N)
  : option group :=
  match p with
  | [] => Some g
  | GroupOpen :: p' => match_here p' (Filling []) s
  | GroupClose :: p' => match_here p' (close g) s
  | Atom c One :: p' =>
      match s with
      | a :: s' => if c a then match_here p' (push a g) s' else None
      | [] => None
      end
  | Atom c Opt :: p' =>
      match s with
      | a :: s' =>
          if c a then
            match match_here p' (push a g) s' with
            | Some r => Some r
            | None => match_here p' g s
            end
          else match_here p' g s
      | [] => match_here p' g []
      end
  | Atom c Star :: p' => star c (match_here p') g s
  | Atom c Plus :: p' =>
      match s with
      | a :: s' => if c a then star c (match_here p') (push a g) s' else None
      | [] => None
      end
  end.

(** [re.search]: the match at the leftmost position that has one. *)
Fixpoint search (p : list elem) (s : list N) : option group :=
  match match_here p NotEntered s with
  | Some g => Some g
  | None =>
      match s with
      | [] => None
      | _ :: s' => search p s'
      end
  end.

(** [m.group(1)], as code points. *)
Definition group1 (g : group) : option (list N) :=
  match g with
  | Closed s => Some s
  | _ => None
  end.

(** The lower-case characters other than [lo] with the upper case of
    [lo]: the table of extra cases of [re], for the ASCII letters. *)
Definition extra_cases (lo : N) : list N :=
  if (lo =? 105)%N then [305%N] else if (lo =? 115)%N then [383%N] else [].

(** A literal ASCII character [c] of a pattern compiled with
    [re.IGNORECASE].  For a letter the subject character is lower-cased
    and compared with the lower case of [c] and its extra cases; a
    character without case is compared as it is. *)
Definition ichar (U : Unicode) (c : ascii) : N -> bool :=
  if is_upper c || is_lower c then
    fun a =>
      let lo := code (lower_char c) in
      existsb (N.eqb (tolower U a)) (lo :: extra_cases lo)
  else
    fun a => (a =? code c)%N.

Definition iliteral (U : Unicode) (s : string) : list elem :=
  map (fun c => Atom (ichar U c) One) (chars s).

(** [[\d,]] *)
Definition digit_or_comma (U : Unicode) (a : N) : bool :=
  is_digit U a || (a =? 44)%N.

End Re.

(* ===================================================================== *)
(** * The collaborators: file system, OCR engine, PDF rasterizer          *)
(* ===================================================================== *)

Module Env.
Import Py Uni.

Inductive platform : Type := Posix | Windows.

(** [os.sep] and [os.altsep] *)
Definition is_sep (os : platform) (a : ascii) : bool :=
  match os with
  | Posix => Ascii.eqb a "/"%char
  | Windows => Ascii.eqb a "\"%char || Ascii.eqb a "/"%char
  end.

Definition is_dot (a : ascii) : bool := Ascii.eqb a "."%char.

(** The part of [l] after the last element satisfying [P] (all of [l]
    when there is none). *)
Fixpoint after_last (P : ascii -> bool) (l : list ascii) : list ascii :=
  match l with
  | [] => []
  | a :: l' =>
      if existsb P l' then after_last P l'
      else if P a then l' else a :: l'
  end.

Fixpoint skip_while (P : ascii -> bool) (l : list ascii) : list ascii :=
  match l with
  | [] => []
  | a :: l' => if P a then skip_while P l' else l
  end.

(** [os.path.splitext(p)]: the extension starts at the last dot of the
    final path component, provided some character other than a dot
    precedes it in that component. *)
Definition splitext (os : platform) (p : string) : string * string :=
  let name := after_last (is_sep os) (chars p) in
  let body := skip_while is_dot name in
  let ext :=
    if existsb is_dot body then "."%char :: after_last is_dot body else [] in
  (str (firstn (length (chars p) - length ext) (chars p)), str ext).

(** A decoded raster image (a [PIL.Image]). *)
Inductive Image : Type := Raster (data : string).

(** What the process does not own: the platform, and the libraries the
    extractor and the upload handler call.  Each library function is
    given the content of the file it is pointed at. *)
Record World : Type := {
  os_name : platform;
  (** the character database of the interpreter *)
  unicode : Unicode;
  (** [PIL.Image.open] *)
  Image_open : string -> result Image;
  (** [pytesseract.image_to_string] *)
  image_to_string : Image -> result string;
  (** [pdf2image.convert_from_path]: the pages, in page order *)
  convert_from_path : string -> result (list Image);
  (** reading a file opened with [open(path, "r", encoding="utf-8")] *)
  read_text : string -> result string;
  (** [magic.Magic(mime=True).from_file] *)
  magic_from_file : string -> string;
  (** [str(e)] *)
  exn_str : exn -> string;
  (** [str(list(ALLOWED_MIME_TYPES))]; the iteration order of a set is
      not specified *)
  allowed_types_repr : string
}.

(** The files on disk: path to content. *)
Abbreviation FileSystem := (gmap string string).

Definition exists_ (fs : FileSystem) (path : string) : bool :=
  bool_decide (is_Some (fs !! path)).

Definition read_bytes (fs : FileSystem) (path : string) : result string :=
  match fs !! path with
  | Some data => Ok data
  | None => Raise (OSError "No such file or directory")
  end.

End Env.

(* ===================================================================== *)
(** * services.py                                                         *)
(* ===================================================================== *)

Module Services.
Import Py Uni Re Env.

(** The dictionary returned by [parse_claim_text]. *)
Record ParsedFields : Type := {
  claim_type : option string;
  amount : option spec_float
}.

(** [r"Claim\s*Type\s*:\s*(\w+)"] with [re.IGNORECASE] *)
Definition CLAIM_TYPE_RE (U : Unicode) : list elem :=
  iliteral U "Claim" ++ [Atom (is_space U) Star] ++
  iliteral U "Type" ++ [Atom (is_space U) Star; Atom (ichar U ":") One;
                        Atom (is_space U) Star;
                        GroupOpen; Atom (is_word U) Plus; GroupClose].

(** [r"Amount\s*:\s*\$?([\d,]+\.\d{2})"] with [re.IGNORECASE] *)
Definition AMOUNT_RE (U : Unicode) : list elem :=
  iliteral U "Amount" ++ [Atom (is_space U) Star; Atom (ichar U ":") One;
                          Atom (is_space U) Star; Atom (ichar U "$") Opt;
                          GroupOpen; Atom (digit_or_comma U) Plus;
                          Atom (ichar U ".") One;
                          Atom (is_digit U) One; Atom (is_digit U) One;
                          GroupClose].

Definition parse_claim_text (U : Unicode) (text : string)
  : result ParsedFields :=
  let type_match := search (CLAIM_TYPE_RE U) (codepoints text) in
  let claim_type :=
    match type_match with
    | Some m => option_map utf8 (group1 m)
    | None => None
    end in
  let amount_match := search (AMOUNT_RE U) (codepoints text) in
  amount <-
    match amount_match with
    | Some m =>
        match group1 m with
        | Some g => x <- float U (remove_commas g) ;; Ok (Some x)
        | None => Raise (AttributeError "'NoneType' object has no attribute 'replace'")
        end
    | None => Ok None
    end ;;
  Ok {| claim_type := claim_type; amount := amount |}.

(** [extract_text_from_file]: the branch is chosen by the lower-cased
    extension of [file_path]; everything raised inside the [try],
    including the handler's own "unsupported" exception, reaches the
    [except Exception] clause. *)
Definition extract_text_from_file (w : World) (fs : FileSystem)
  (file_path : string) : result string :=
  let ext := lower (snd (splitext (os_name w) file_path)) in
  try_except
    (if bool_decide (ext ∈ [".png"; ".jpg"; ".jpeg"]) then
       data <- read_bytes fs file_path ;;
       img <- Image_open w data ;;
       image_to_string w img
     else if bool_decide (ext = ".pdf") then
       data <- read_bytes fs file_path ;;
       pages <- convert_from_path w data ;;
       texts <- comprehension (image_to_string w) pages ;;
       Ok (join (String (ascii_of_nat 10) "") texts)
     else if bool_decide (ext = ".txt") then
       data <- read_bytes fs file_path ;;
       read_text w data
     else
       Raise (HTTPException 400
                (DStr ("Unsupported file type: " +:+ ext))))
    (fun e =>
       Raise (HTTPException 500
                (DStr ("Failed to extract text: " +:+ exn_str w e)))).

End Services.

(* ===================================================================== *)
(** * rate_limiter.py                                                     *)
(* ===================================================================== *)

Module RateLimiter.
Import Py.

(** One entry of [block_log]. *)
Record BlockEvent : Type := {
  timestamp : string;
  ip : string;
  api_key : string;
  reason : string
}.

(** The two module-level objects: [call_log], a [defaultdict(list)] keyed
    by [(ip, api_key)], and [block_log], a [deque(maxlen=100)]. *)
Record State : Type := {
  call_log : gmap (string * string) (list Q);
  block_log : list BlockEvent
}.

(** The state when the module has just been imported. *)
Definition initial : State := {| call_log := ∅; block_log := [] |}.

Definition RATE_LIMIT : nat := 30.
Definition BLOCK_LOG_MAXLEN : nat := 100.

(** [deque.append] on a bounded deque: when full, the leftmost entry is
    discarded. *)
Definition deque_append {A} (maxlen : nat) (d : list A) (x : A) : list A :=
  if (maxlen <=? length d)%nat then drop 1 d ++ [x] else d ++ [x].

(** [t > window_start] *)
Definition Qgtb (t window_start : Q) : bool := negb (Qle_bool t window_start).

(** The part of a request the limiter reads: [request.client.host]. *)
Record Request : Type := { client_host : option string }.

(** [request.client.host or "unknown"] *)
Definition client_ip_of (request : Request) : string :=
  match client_host request with
  | Some h => if bool_decide (h = "") then "unknown" else h
  | None => "unknown"
  end.

(** In this module the name [datetime] is the class imported by
    [from datetime import datetime, timezone].  The class has no
    attribute [timezone], so evaluating [datetime.timezone] raises. *)
Definition datetime_timezone_utc : result unit :=
  Raise (AttributeError
           "type object 'datetime.datetime' has no attribute 'timezone'").

(** [datetime.now(datetime.timezone.utc).isoformat()], where [clock_iso]
    is what the wall clock would print. *)
Definition datetime_now_isoformat (clock_iso : string) : result string :=
  _ <- datetime_timezone_utc ;; Ok clock_iso.

(** [rate_limiter(request, api_key)], with [now] the reading of
    [time.time()].  Returns the outcome for the request and the new
    module state. *)
Definition rate_limiter (request : Request) (api_key : string) (now : Q)
  (clock_iso : string) (st : State) : result unit * State :=
  let client_ip := client_ip_of request in
  let rate_key := (client_ip, api_key) in
  let window_start := (now - 60)%Q in
  let recent_calls :=
    List.filter (fun t => Qgtb t window_start) (call_log st !!! rate_key) in
  let log1 := <[rate_key := recent_calls]> (call_log st) in
  if (RATE_LIMIT <=? length recent_calls)%nat then
    match
      ts <- datetime_now_isoformat clock_iso ;;
      Ok {| timestamp := ts; ip := client_ip; api_key := api_key;
            reason := "Rate limit exceeded" |}
    with
    | Raise e => (Raise e, {| call_log := log1; block_log := block_log st |})
    | Ok event =>
        (Raise (HTTPException 429
                  (DStr "Rate limit exceeded — try again in a bit.")),
         {| call_log := log1;
            block_log := deque_append BLOCK_LOG_MAXLEN (block_log st) event |})
    end
  else
    (Ok tt,
     {| call_log := <[rate_key := recent_calls ++ [now]]> log1;
        block_log := block_log st |}).

End RateLimiter.

(* ===================================================================== *)
(** * main.py                                                             *)
(* ===================================================================== *)

Module Main.
Import Py Env Services.

(** ** Upload validation *)

Definition UPLOAD_DIR : string := "uploads".

Definition ALLOWED_MIME_TYPES : list string :=
  ["image/png"; "image/jpeg"; "application/pdf"; "text/plain"].

Definition FILE_SIZE_LIMITS : gmap string Z :=
  list_to_map
    [("image/png", 15 * 1024 * 1024);
     ("image/jpeg", 15 * 1024 * 1024);
     ("application/pdf", 20 * 1024 * 1024);
     ("text/plain", 5 * 1024 * 1024)].

(** The uploaded part: client-supplied name and the bytes. *)
Record UploadFile : Type := { filename : string; content : string }.

(** [os.path.join(UPLOAD_DIR, name)] *)
Definition upload_path (os : platform) (name : string) : string :=
  match chars name with
  | a :: _ =>
      if is_sep os a then name
      else UPLOAD_DIR +:+ (match os with Posix => "/" | Windows => "\" end)
                      +:+ name
  | [] => UPLOAD_DIR +:+ (match os with Posix => "/" | Windows => "\" end)
  end.

(** [f"{max_size / (1024 * 1024)}"] for a whole number of mebibytes. *)
Definition mebibytes_repr (max_size : Z) : string :=
  pretty (max_size / (1024 * 1024)) +:+ ".0".

(** [upload_file].  [rest] stands for the statements that follow the two
    checks (storing the file, creating the claim, building the response);
    like the checks they run inside the [try].  Writing the temporary
    copy is taken to succeed: the upload directory is created when the
    module is loaded, and the name is taken to lead to no directory that
    is missing. *)
Definition upload_file {A} (w : World) (file : UploadFile)
  (rest : FileSystem -> result A * FileSystem) (fs : FileSystem)
  : result A * FileSystem :=
  let temp_file_path := upload_path (os_name w) (filename file) in
  let '(body, fs') :=
    let fs1 := <[temp_file_path := content file]> fs in
    let mime_type := magic_from_file w (content file) in
    match FILE_SIZE_LIMITS !! mime_type with
    | None =>
        (Raise (HTTPException 400
                  (DErr "INVALID_FILE_TYPE"
                     ("File type '" +:+ mime_type
                      +:+ "' is not allowed. Allowed types: "
                      +:+ allowed_types_repr w))),
         delete temp_file_path fs1)
    | Some max_size =>
        let file_size := Z.of_nat (String.length (content file)) in
        if max_size <? file_size then
          (Raise (HTTPException 400
                    (DErr "FILE_TOO_LARGE"
                       ("File exceeds limit. Max allowed: "
                        +:+ mebibytes_repr max_size +:+ "MB"))),
           delete temp_file_path fs1)
        else rest fs1
    end in
  (try_except body
     (fun e =>
        Raise (HTTPException 500
                 (DErr "UPLOAD_FAILED"
                    "File upload failed due to an internal error."))),
   fs').

(** ** Claim analysis *)

Inductive ClaimStatus : Type := PENDING | APPROVED | REJECTED | UNDER_REVIEW.

(** A row of the [claims] table, without its primary key (the key of the
    table map) and without the two time stamps kept by the ORM:
    [created_at], set when the row is inserted, and [updated_at], set
    anew by every UPDATE of the row. *)
Record Claim : Type := {
  claimant_name : string;
  claim_type : string;
  amount : spec_float;
  description : option string;
  document_path : option string;
  file_name : option string;
  file_type : option string;
  file_size : option Z;
  status : ClaimStatus;
  ocr_text : option string
}.

Definition set_ocr_text (v : string) (c : Claim) : Claim :=
  {| claimant_name := claimant_name c; claim_type := claim_type c;
     amount := amount c; description := description c;
     document_path := document_path c; file_name := file_name c;
     file_type := file_type c; file_size := file_size c;
     status := status c; ocr_text := Some v |}.

Definition set_claim_type (v : string) (c : Claim) : Claim :=
  {| claimant_name := claimant_name c; claim_type := v;
     amount := amount c; description := description c;
     document_path := document_path c; file_name := file_name c;
     file_type := file_type c; file_size := file_size c;
     status := status c; ocr_text := ocr_text c |}.

Definition set_amount (v : spec_float) (c : Claim) : Claim :=
  {| claimant_name := claimant_name c; claim_type := claim_type c;
     amount := v; description := description c;
     document_path := document_path c; file_name := file_name c;
     file_type := file_type c; file_size := file_size c;
     status := status c; ocr_text := ocr_text c |}.

(** The database as the handler sees it: the committed rows, and the
    journal of [db.commit()] calls, each with the row it made durable. *)
Record Database : Type := {
  rows : gmap Z Claim;
  journal : list (Z * Claim)
}.

(** [db.commit()] with the claim object as the only pending change. *)
Definition commit (claim_id : Z) (claim : Claim) (db : Database) : Database :=
  {| rows := <[claim_id := claim]> (rows db);
     journal := journal db ++ [(claim_id, claim)] |}.

(** [db.refresh(claim)] *)
Definition refresh (claim_id : Z) (claim : Claim) (db : Database) : Claim :=
  default claim (rows db !! claim_id).

(** [utils.get_claim_or_404], for a [claim_id] within the range of the
    database driver (a signed 64-bit integer, [int64] below); an id
    beyond that range makes the driver raise before the query runs. *)
Definition get_claim_or_404 (claim_id : Z) (db : Database) : result Claim :=
  match rows db !! claim_id with
  | Some claim => Ok claim
  | None =>
      Raise (HTTPException 404
               (DErr "CLAIM_NOT_FOUND"
                  ("No claim found with ID " +:+ pretty claim_id)))
  end.

Record ClaimAnalysisResponse : Type := {
  resp_claim_id : Z;
  source_file : string;
  extracted_text : string
}.

(** The body of the [try] in [analyze_claim]; [claim] is the ORM object
    loaded by [get_claim_or_404] and [path] its [document_path]. *)
Definition analyze_body (w : World) (fs : FileSystem) (claim_id : Z)
  (claim : Claim) (path : string) (db : Database)
  : result ClaimAnalysisResponse * Database :=
  match extract_text_from_file w fs path with
  | Raise e => (Raise e, db)
  | Ok text =>
      match parse_claim_text (unicode w) text with
      | Raise e => (Raise e, db)
      | Ok parsed =>
          let claim := set_ocr_text text claim in
          let db := commit claim_id claim db in
          let claim := refresh claim_id claim db in
          let updated_fields : list string := [] in
          let '(claim, updated_fields) :=
            match Services.claim_type parsed with
            | Some ct =>
                (* [if parsed.get("claim_type"):] is false on [""] *)
                if bool_decide (ct = "") then (claim, updated_fields)
                else (set_claim_type ct claim, updated_fields ++ ["claim_type"])
            | None => (claim, updated_fields)
            end in
          let '(claim, updated_fields) :=
            match Services.amount parsed with
            | Some a => (set_amount a claim, updated_fields ++ ["amount"])
            | None => (claim, updated_fields)
            end in
          let db :=
            match updated_fields with
            | [] => db
            | _ :: _ => commit claim_id claim db
            end in
          (Ok {| resp_claim_id := claim_id;
                 source_file := path;
                 extracted_text := text |},
           db)
      end
  end.

(** [analyze_claim(claim_id, db)] *)
Definition analyze_claim (w : World) (fs : FileSystem) (claim_id : Z)
  (db : Database) : result ClaimAnalysisResponse * Database :=
  match get_claim_or_404 claim_id db with
  | Raise e => (Raise e, db)
  | Ok claim =>
      match document_path claim with
      | Some path =>
          if bool_decide (path = "") || negb (exists_ fs path) then
            (Raise (HTTPException 404
                      (DStr "Document file not found for this claim.")),
             db)
          else
            let '(r, db') := analyze_body w fs claim_id claim path db in
            (try_except r
               (fun e =>
                  Raise (HTTPException 500
                           (DStr "OCR analysis failed. Please check the uploaded file format or contents."))),
             db')
      | None =>
          (Raise (HTTPException 404
                    (DStr "Document file not found for this claim.")),
           db)
      end
  end.

End Main.

(* ===================================================================== *)
(** * Notions used to state the properties                                *)
(* ===================================================================== *)

Module Notions.
Import Py Uni Re Env Services RateLimiter Main.

(** ** Patterns, declaratively *)

(** Feeding consumed characters to the group, oldest first. *)
Definition pushes (l : list N) (g : group) : group :=
  fold_left (fun g a => push a g) l g.

(** [accepts p g u r]: the pattern [p] can consume exactly [u], taking
    the group from state [g] to state [r]. *)
Fixpoint accepts (p : list elem) (g : group) (u : list N) (r : group)
  : Prop :=
  match p with
  | [] => u = [] /\ r = g
  | GroupOpen :: p' => accepts p' (Filling []) u r
  | GroupClose :: p' => accepts p' (close g) u r
  | Atom c One :: p' =>
      exists a u', u = a :: u' /\ c a = true /\ accepts p' (push a g) u' r
  | Atom c Opt :: p' =>
      accepts p' g u r \/
      exists a u', u = a :: u' /\ c a = true /\ accepts p' (push a g) u' r
  | Atom c Star :: p' =>
      exists pre u', u = pre ++ u' /\ forallb c pre = true /\
                     accepts p' (pushes pre g) u' r
  | Atom c Plus :: p' =>
      exists a pre u', u = a :: pre ++ u' /\ c a = true /\
                       forallb c pre = true /\
                       accepts p' (pushes (a :: pre) g) u' r
  end.

(** The match attempt at offset [i] of [s]. *)
Definition match_at (p : list elem) (s : list N) (i : nat) : option group :=
  match_here p NotEntered (drop i s).

(** The result at the smallest offset [0 <= i <= len(s)] that matches. *)
Definition leftmost (p : list elem) (s : list N) : option group :=
  head (omap (match_at p s) (seq 0 (S (length s)))).

(** Group 1 of the leftmost match of [p] in [text], as code points. *)
Definition first_group (p : list elem) (text : string) : option (list N) :=
  g ← leftmost p (codepoints text); group1 g.

Definition map_group (f : N -> N) (g : group) : group :=
  match g with
  | NotEntered => NotEntered
  | Filling acc => Filling (map f acc)
  | Closed s => Closed (map f s)
  end.

(** Every class of the pattern is blind to [f]. *)
Definition blind (f : N -> N) (e : elem) : Prop :=
  match e with
  | Atom c _ => forall a, c (f a) = c a
  | _ => True
  end.

(** Every character of the group, filled or being filled, satisfies [P]. *)
Definition group_Forall (P : N -> Prop) (g : group) : Prop :=
  match g with
  | NotEntered => True
  | Filling acc => Forall P acc
  | Closed s => Forall P s
  end.

(** The ids the database driver accepts. *)
Definition int64 (z : Z) : Prop := - 2 ^ 63 <= z < 2 ^ 63.

(** The code points proper: below 0x110000. *)
Definition valid (c : N) : Prop := (c < 1114112)%N.

(** One step of [decode]: the code point that starts with the byte [b0],
    and the number of bytes it takes from [r]. *)
Definition decode_one (b0 : N) (r : list N) : N * nat :=
  (
  if b0 <? 128 then (b0, 0%nat)
  else
    match r with
    | b1 :: r1 =>
        let c2 := (b0 - 192) * 64 + (b1 - 128) in
        if (192 <=? b0) && (b0 <? 224) && continuation b1 && (128 <=? c2)
        then (c2, 1%nat)
        else
          match r1 with
          | b2 :: r2 =>
              let c3 := (b0 - 224) * 4096 + (b1 - 128) * 64 + (b2 - 128) in
              if (224 <=? b0) && (b0 <? 240) && continuation b1
                 && continuation b2 && (2048 <=? c3)
              then (c3, 2%nat)
              else
                match r2 with
                | b3 :: r3 =>
                    let c4 := (b0 - 240) * 262144 + (b1 - 128) * 4096
                              + (b2 - 128) * 64 + (b3 - 128) in
                    if (240 <=? b0) && (b0 <? 248) && continuation b1
                       && continuation b2 && continuation b3
                       && (65536 <=? c4) && (c4 <? 1114112)
                    then (c4, 3%nat)
                    else (stray b0, 0%nat)
                | [] => (stray b0, 0%nat)
                end
          | [] => (stray b0, 0%nat)
          end
    | [] => (stray b0, 0%nat)
    end)%N.

(** ** The rate limiter, caller by caller *)

Definition rate_key (request : Request) (api_key : string) : string * string :=
  (client_ip_of request, api_key).

(** The timestamps on record for a caller; none when the caller has no
    entry, as with the [defaultdict]. *)
Definition window (st : State) (key : string * string) : list Q :=
  call_log st !!! key.

(** The timestamps the limiter keeps at reading [now]. *)
Definition live (now : Q) (w : list Q) : list Q :=
  List.filter (fun t => Qgtb t (now - 60)) w.

(** One caller issuing one request at each of the readings [times]. *)
Fixpoint issue (request : Request) (api_key : string) (iso : Q -> string)
  (times : list Q) (st : State) : list (result unit) * State :=
  match times with
  | [] => ([], st)
  | now :: times' =>
      let '(r, st') := rate_limiter request api_key now (iso now) st in
      let '(rs, st'') := issue request api_key iso times' st' in
      (r :: rs, st'')
  end.

(** The retention rule in the words of the specification: a timestamp is
    kept when it lies within [[now - 60s, now]]. *)
Definition within_window (now t : Q) : bool :=
  Qle_bool (now - 60) t && Qle_bool t now.

(** ** The extractor and the analysis handler *)

(** The extension the extractor dispatches on. *)
Definition file_ext (w : World) (path : string) : string :=
  lower (snd (splitext (os_name w) path)).

(** What the [except] clause of the extractor raises for a caught [e]. *)
Definition extraction_failed (w : World) (e : exn) : exn :=
  HTTPException 500 (DStr ("Failed to extract text: " +:+ exn_str w e)).

(** The number of [db.commit()] calls of a successful analysis: one for
    the raw text, and one more when a field was found. *)
Definition commits (parsed : ParsedFields) : nat :=
  match Services.claim_type parsed, Services.amount parsed with
  | None, None => 1
  | _, _ => 2
  end.

(** A claim with the fields that were found written over it. *)
Definition apply_parsed (parsed : ParsedFields) (c : Claim) : Claim :=
  let c :=
    match Services.claim_type parsed with
    | Some ct => set_claim_type ct c
    | None => c
    end in
  match Services.amount parsed with
  | Some a => set_amount a c
  | None => c
  end.

End Notions.

(* ===================================================================== *)
(** * Sample collaborators and inputs                                     *)
(* ===================================================================== *)

Module Samples.
Import Py Uni Env Services RateLimiter Main Notions.

Definition newline : string := String (ascii_of_nat 10) "".

(** An excerpt of the Unicode character database: the Latin-1
    supplement, the dotted and dotless i, the long s, the Kelvin sign, the
    Arabic-Indic and the full-width digits, and the blanks.  A code point
    outside the excerpt is given no property and maps to itself. *)
Definition ucd_excerpt : Unicode := {|
  uni_isspace := fun c =>
    bool_decide (c ∈ [133; 160; 5760; 8232; 8233; 8239; 8287; 12288]%N)
    || ((8192 <=? c) && (c <=? 8202))%N;
  uni_isalnum := fun c =>
    bool_decide (c ∈ [170; 178; 179; 181; 185; 186; 188; 189; 190;
                      304; 305; 383; 8490]%N)
    || ((192 <=? c) && (c <=? 255) && negb (c =? 215) && negb (c =? 247))%N
    || ((1632 <=? c) && (c <=? 1641))%N
    || ((65296 <=? c) && (c <=? 65305))%N;
  uni_todecimal := fun c =>
    if ((1632 <=? c) && (c <=? 1641))%N then Some (c - 1632)%N
    else if ((65296 <=? c) && (c <=? 65305))%N then Some (c - 65296)%N
    else None;
  uni_tolower := fun c =>
    if ((192 <=? c) && (c <=? 222) && negb (c =? 215))%N then (c + 32)%N
    else if (c =? 304)%N then 105%N
    else if (c =? 8490)%N then 107%N
    else c
|}.

(** A stand-in for the libraries: a file is a PDF when it starts with
    [%PDF], each further character being one page; an image when it
    starts with [PNG]; OCR reads back the raster data. *)
Definition toy_world : World := {|
  os_name := Posix;
  unicode := ucd_excerpt;
  Image_open := fun data =>
    if String.prefix "PNG" data
    then Ok (Raster (String.substring 3 (String.length data - 3) data))
    else Raise (LibraryError "cannot identify image file");
  image_to_string := fun img => match img with Raster d => Ok d end;
  convert_from_path := fun data =>
    if String.prefix "%PDF" data
    then Ok (map (fun a => Raster (String a ""))
               (chars (String.substring 4 (String.length data - 4) data)))
    else Raise (LibraryError "Unable to get page count.");
  read_text := fun data => Ok data;
  magic_from_file := fun data =>
    if String.prefix "%PDF" data then "application/pdf"
    else if String.prefix "PNG" data then "image/png"
    else if String.prefix "PK" data then "application/zip"
    else "text/plain";
  exn_str := fun e =>
    match e with
    | HTTPException c (DStr s) => pretty c +:+ ": " +:+ s
    | HTTPException c (DErr err _) => pretty c +:+ ": " +:+ err
    | AttributeError m | ValueError m | OSError m | LibraryError m => m
    end;
  allowed_types_repr :=
    "['image/png', 'image/jpeg', 'application/pdf', 'text/plain']"
|}.

Definition travel_text : string :=
  "Claim Type: Travel" +:+ newline +:+ "Amount: $120.00".

Definition sample_fs : FileSystem :=
  {[ "uploads/travel.txt" := travel_text;
     "uploads/travel.pdf" := travel_text;
     "uploads/abc.pdf" := "%PDFABC";
     "uploads/notes.txt" := "nothing to see";
     "uploads/claim.bin" := travel_text ]}.

Definition sample_claim (path : string) : Claim := {|
  claimant_name := "Ada";
  claim_type := "Auto";
  amount := S754_zero false;
  description := None;
  document_path := Some path;
  file_name := None;
  file_type := None;
  file_size := None;
  status := PENDING;
  ocr_text := None
|}.

Definition sample_db : Database := {|
  rows := {[ 1 := sample_claim "uploads/travel.txt";
             2 := sample_claim "uploads/notes.txt";
             3 := sample_claim "uploads/travel.pdf" ]};
  journal := []
|}.

Definition caller : Request := {| client_host := Some "203.0.113.7" |}.

Definition clock (now : Q) : string := "2026-01-01T00:00:00+00:00".

(** A reading of [time.time()]. *)
Definition t0 : Q := 1700000000.

(** The limiter after thirty requests of [caller] at reading [t0]. *)
Definition thirty_at_t0 : State :=
  snd (issue caller "k" clock (repeat t0 30) initial).

End Samples.

(* ===================================================================== *)
(** * auth.py, routers/admin.py and the dependency stack of main.py       *)
(* ===================================================================== *)

Module Auth.
Import Py RateLimiter.

(** The process environment. *)
Abbreviation Environ := (gmap string string).

(** [os.getenv(name)]: [None] for a name that is not set. *)
Definition getenv (env : Environ) (name : string) : option string :=
  env !! name.

(** [require_api_key(api_key)], where [api_key] is the value of the
    [X-API-Key] header, [None] when the request has none
    ([auto_error=False]). *)
Definition require_api_key (env : Environ) (api_key : option string)
  : result string :=
  let expected_key := getenv env "API_KEY" in
  match expected_key, api_key with
  | Some expected, Some key =>
      (* [not expected_key or api_key != expected_key] *)
      if bool_decide (expected = "") || negb (bool_decide (key = expected))
      then Raise (HTTPException 403 (DStr "Invalid or missing API Key"))
      else Ok key
  | _, _ => Raise (HTTPException 403 (DStr "Invalid or missing API Key"))
  end.

(** [auth_stack = [Depends(require_api_key), Depends(rate_limiter)]]:
    [require_api_key] is resolved first, once per request; when it
    raises, [rate_limiter] is not called. *)
Definition auth_stack (env : Environ) (request : Request)
  (header : option string) (now : Q) (clock_iso : string) (st : State)
  : result unit * State :=
  match require_api_key env header with
  | Raise e => (Raise e, st)
  | Ok api_key => rate_limiter request api_key now clock_iso st
  end.

(** [get_rate_limit_block_log]: the list under
    ["recent_blocked_attempts"]. *)
Definition get_rate_limit_block_log (env : Environ) (header : option string)
  (st : State) : result (list BlockEvent) :=
  api_key <- require_api_key env header ;;
  let admin_key := getenv env "ADMIN_KEY" in
  match admin_key with
  | Some admin =>
      (* [if admin_key and api_key != admin_key] *)
      if negb (bool_decide (admin = "")) && negb (bool_decide (api_key = admin))
      then Raise (HTTPException 403 (DStr "Not authorized to view block logs"))
      else Ok (block_log st)
  | None => Ok (block_log st)
  end.

End Auth.

(* ===================================================================== *)
(** * Creating and deleting claims: services.py, utils.py, main.py        *)
(* ===================================================================== *)

Module Crud.
Import Py Env Services Main Auth.

(** How a handler without a [try] of its own can end: with its value,
    with one of the exceptions of [exn], or with a [TypeError]. *)
Inductive outcome (A : Type) : Type :=
| Returned (a : A)
| Raised (e : exn)
| RaisedTypeError (msg : string).
Arguments Returned {A} a.
Arguments Raised {A} e.
Arguments RaisedTypeError {A} msg.

(** Binding the arguments of a call with [n_positional] positional
    arguments and the keyword arguments [keywords] to a function whose
    parameters are [params], all positional-or-keyword and without
    defaults.  The result is the message of the [TypeError] raised, if
    any: keywords are looked at first, in call order, then the number of
    positional arguments, then what is still missing. *)
Fixpoint bind_keywords (fname : string) (params : list string)
  (n_positional : nat) (keywords : list string) : option string :=
  match keywords with
  | [] => None
  | k :: keywords' =>
      if negb (bool_decide (k ∈ params)) then
        Some (fname +:+ "() got an unexpected keyword argument '" +:+ k +:+ "'")
      else if bool_decide (k ∈ take n_positional params) then
        Some (fname +:+ "() got multiple values for argument '" +:+ k +:+ "'")
      else bind_keywords fname params n_positional keywords'
  end.

Definition bind_arguments (fname : string) (params : list string)
  (n_positional : nat) (keywords : list string) : option string :=
  match bind_keywords fname params n_positional keywords with
  | Some msg => Some msg
  | None =>
      if (length params <? n_positional)%nat then
        Some (fname +:+ "() takes " +:+ pretty (length params)
              +:+ " positional arguments but " +:+ pretty n_positional
              +:+ " were given")
      else if bool_decide (Forall (fun p => p ∈ keywords)
                             (drop n_positional params)) then None
      else Some (fname +:+ "() missing required positional arguments")
  end.

(** The signature of [services.create_claim]. *)
Definition create_claim_params : list string :=
  ["db"; "claimant_name"; "claim_type"; "amount"; "description"; "file_path"].

(** The body of [services.create_claim]; [new_id] is the primary key the
    database gives the new row. *)
Definition create_claim (new_id : Z) (db : Database)
  (claimant_name claim_type : string) (amount : spec_float)
  (description file_path : option string) : Claim * Database :=
  let claim :=
    {| claimant_name := claimant_name; Main.claim_type := claim_type;
       Main.amount := amount; description := description;
       document_path := file_path; file_name := None; file_type := None;
       file_size := None; status := PENDING; ocr_text := None |} in
  let db := commit new_id claim db in
  (refresh new_id claim db, db).

(** The body of a [ClaimCreate] request. *)
Record ClaimCreate : Type := {
  payload_claimant_name : string;
  payload_claim_type : string;
  payload_amount : spec_float;
  payload_description : option string
}.

(** [create_claim_from_json], behind its [Depends(require_api_key)].  The
    call passes every argument by keyword, the last one under the name
    [document_path]. *)
Definition create_claim_from_json (env : Environ) (header : option string)
  (payload : ClaimCreate) (new_id : Z) (db : Database)
  : outcome (Z * Claim) * Database :=
  match require_api_key env header with
  | Raise e => (Raised e, db)
  | Ok _ =>
      match bind_arguments "create_claim" create_claim_params 0
              ["db"; "claimant_name"; "claim_type"; "amount"; "description";
               "document_path"] with
      | Some msg => (RaisedTypeError msg, db)
      | None =>
          let '(claim, db') :=
            create_claim new_id db (payload_claimant_name payload)
              (payload_claim_type payload) (payload_amount payload)
              (payload_description payload) None in
          (Returned (new_id, claim), db')
      end
  end.

(** [utils.delete_file_if_exists]; [removable path] tells whether
    [os.remove(path)] succeeds.  A failing removal is logged and
    swallowed. *)
Definition delete_file_if_exists (removable : string -> bool)
  (file_path : option string) (fs : FileSystem) : FileSystem :=
  match file_path with
  | Some path =>
      if negb (bool_decide (path = "")) && exists_ fs path then
        if removable path then delete path fs else fs
      else fs
  | None => fs
  end.

(** [services.delete_claim]: [db.delete(claim)] and [db.commit()].  The
    journal lists row writes; a deletion adds none. *)
Definition service_delete_claim (claim_id : Z) (db : Database) : Database :=
  {| rows := delete claim_id (rows db); journal := journal db |}.

(** [main.delete_claim]: the deleted id, the files and the database
    afterwards. *)
Definition delete_claim (removable : string -> bool) (fs : FileSystem)
  (claim_id : Z) (db : Database) : result Z * FileSystem * Database :=
  match get_claim_or_404 claim_id db with
  | Raise e => (Raise e, fs, db)
  | Ok claim =>
      let fs := delete_file_if_exists removable (document_path claim) fs in
      let db := service_delete_claim claim_id db in
      (Ok claim_id, fs, db)
  end.

End Crud.

(* ===================================================================== *)
(** * Further notions and samples                                         *)
(* ===================================================================== *)

Module Runs.
Import Py Env Services RateLimiter Main Auth Notions Samples.

(** One call of [rate_limiter]. *)
Record Call : Type := {
  call_request : Request;
  call_key : string;
  call_now : Q;
  call_iso : string
}.

Definition step (st : State) (c : Call) : State :=
  snd (rate_limiter (call_request c) (call_key c) (call_now c) (call_iso c) st).

(** The module state after the calls [calls], in order. *)
Definition run (calls : list Call) (st : State) : State :=
  fold_left step calls st.

(** One request through [auth_stack]. *)
Record Visit : Type := {
  visit_request : Request;
  visit_header : option string;
  visit_now : Q;
  visit_iso : string
}.

Definition visit (env : Environ) (st : State) (v : Visit) : State :=
  snd (auth_stack env (visit_request v) (visit_header v) (visit_now v)
         (visit_iso v) st).

(** The module state after the requests [visits], in order. *)
Definition visits (env : Environ) (vs : list Visit) (st : State) : State :=
  fold_left (visit env) vs st.

(** Libraries as in [toy_world], except that OCR fails on a page whose
    raster is ["?"]. *)
Definition smudged_world : World := {|
  os_name := os_name toy_world;
  unicode := unicode toy_world;
  Image_open := Image_open toy_world;
  image_to_string := fun img =>
    match img with
    | Raster d =>
        if bool_decide (d = "?") then Raise (LibraryError "tesseract failed")
        else Ok d
    end;
  convert_from_path := convert_from_path toy_world;
  read_text := read_text toy_world;
  magic_from_file := magic_from_file toy_world;
  exn_str := exn_str toy_world;
  allowed_types_repr := allowed_types_repr toy_world
|}.

(** A three-page PDF whose second page cannot be read. *)
Definition smudged_fs : FileSystem := {[ "uploads/smudged.pdf" := "%PDFA?C" ]}.

(** The three errors [analyze_claim] can answer with. *)
Definition analysis_error (claim_id : Z) (e : exn) : Prop :=
  e = HTTPException 404
        (DErr "CLAIM_NOT_FOUND" ("No claim found with ID " +:+ pretty claim_id))
  \/ e = HTTPException 404 (DStr "Document file not found for this claim.")
  \/ e = HTTPException 500
           (DStr "OCR analysis failed. Please check the uploaded file format or contents.").

Definition sample_env : Environ :=
  {[ "API_KEY" := "s3cret"; "ADMIN_KEY" := "r00t" ]}.

(** Two claims that point at the same stored document. *)
Definition shared_db : Database := {|
  rows := {[ 1 := sample_claim "uploads/travel.txt";
             2 := sample_claim "uploads/travel.txt" ]};
  journal := []
|}.

End Runs.

(* ===================================================================== *)
(** * Facts about the runtime fragments                                   *)
(* ===================================================================== *)

Section CharFacts.
Import Py Uni.

Ltac by_cases_on a := destruct a as [[] [] [] [] [] [] [] []]; reflexivity.

(** Replace the comparisons that the hypotheses settle by their value. *)
Ltac settle :=
  repeat match goal with
         | |- context [(?a <=? ?b)%N] =>
             first [ replace (a <=? b)%N with true
                       by (symmetry; apply N.leb_le; lia)
                   | replace (a <=? b)%N with false
                       by (symmetry; apply N.leb_gt; lia) ]
         | |- context [(?a <? ?b)%N] =>
             first [ replace (a <? b)%N with true
                       by (symmetry; apply N.ltb_lt; lia)
                   | replace (a <? b)%N with false
                       by (symmetry; apply N.ltb_ge; lia) ]
         | |- context [(?a =? ?b)%N] =>
             first [ replace (a =? b)%N with true
                       by (symmetry; apply N.eqb_eq; lia)
                   | replace (a =? b)%N with false
                       by (symmetry; apply N.eqb_neq; lia) ]
         end;
  cbn [andb orb negb]; try reflexivity.

(** Split on whether [lower_code] changes its argument. *)
Ltac lower_cases c :=
  unfold lower_code;
  destruct ((65 <=? c)%N && (c <=? 90)%N) eqn:?E;
  [apply andb_prop in E as [?%N.leb_le ?%N.leb_le] | try reflexivity].

Lemma code_lower_char a : code (lower_char a) = lower_code (code a).
Proof. by_cases_on a. Qed.

Lemma code_bound a : (code a < 256)%N.
Proof. apply N_ascii_bounded. Qed.

Lemma is_space_lower U c : is_space U (lower_code c) = is_space U c.
Proof. lower_cases c. unfold is_space. settle. Qed.

Lemma is_word_lower U c : is_word U (lower_code c) = is_word U c.
Proof. lower_cases c. unfold is_word. settle. Qed.

Lemma todecimal_lower U c : todecimal U (lower_code c) = todecimal U c.
Proof. lower_cases c. unfold todecimal. settle. Qed.

Lemma is_digit_lower U c : is_digit U (lower_code c) = is_digit U c.
Proof. unfold is_digit. now rewrite todecimal_lower. Qed.

Lemma comma_lower c : (lower_code c =? 44)%N = (c =? 44)%N.
Proof. lower_cases c. settle. Qed.

Lemma tolower_lower U c : tolower U (lower_code c) = tolower U c.
Proof. lower_cases c. unfold tolower, lower_code. settle. Qed.

Lemma is_digit_not_comma U c : is_digit U c = true -> (c =? 44)%N = false.
Proof.
  intros H. destruct (N.eqb_spec c 44) as [->|]; [discriminate H | reflexivity].
Qed.

Lemma is_digit_not_point U c : is_digit U c = true -> (c =? 46)%N = false.
Proof.
  intros H. destruct (N.eqb_spec c 46) as [->|]; [discriminate H | reflexivity].
Qed.

Lemma is_digit_not_sign U c :
  is_digit U c = true -> (c =? 45)%N = false /\ (c =? 43)%N = false.
Proof.
  intros H. split.
  - destruct (N.eqb_spec c 45) as [->|]; [discriminate H | reflexivity].
  - destruct (N.eqb_spec c 43) as [->|]; [discriminate H | reflexivity].
Qed.

Lemma ichar_point U a : Re.ichar U "." a = true -> a = 46%N.
Proof. cbn. now intros ->%N.eqb_eq. Qed.

Lemma ichar_colon U a : Re.ichar U ":" a = true -> a = 58%N.
Proof. cbn. now intros ->%N.eqb_eq. Qed.

Lemma ichar_lower U c a : Re.ichar U c (lower_code a) = Re.ichar U c a.
Proof.
  unfold Re.ichar. destruct (is_upper c || is_lower c) eqn:Hc.
  - now rewrite tolower_lower.
  - apply orb_false_elim in Hc as [Hu Hl]. unfold is_upper, is_lower in *.
    apply andb_false_iff in Hu, Hl. rewrite !N.leb_gt in Hu, Hl.
    lower_cases a. settle.
Qed.

Lemma digit_or_comma_lower U a :
  Re.digit_or_comma U (lower_code a) = Re.digit_or_comma U a.
Proof. unfold Re.digit_or_comma. now rewrite is_digit_lower, comma_lower. Qed.

Lemma chars_str l : chars (str l) = l.
Proof. apply list_ascii_of_string_of_list_ascii. Qed.

Lemma str_chars s : str (chars s) = s.
Proof. apply string_of_list_ascii_of_string. Qed.

Lemma chars_lower s : chars (lower s) = map lower_char (chars s).
Proof. unfold lower. apply chars_str. Qed.

End CharFacts.

(* ===================================================================== *)
(** * Facts about UTF-8                                                   *)
(* ===================================================================== *)

Section Utf8Facts.
Import Py Uni Notions.

(** Linear arithmetic with quotients and remainders by constants. *)
Ltac lia_div := zify; Z.to_euclidean_division_equations; lia.

(** Replace the comparisons that the hypotheses settle by their value. *)
Ltac settle_div :=
  repeat match goal with
         | |- context [(?a <=? ?b)%N] =>
             first [ replace (a <=? b)%N with true
                       by (symmetry; apply N.leb_le; lia_div)
                   | replace (a <=? b)%N with false
                       by (symmetry; apply N.leb_gt; lia_div) ]
         | |- context [(?a <? ?b)%N] =>
             first [ replace (a <? b)%N with true
                       by (symmetry; apply N.ltb_lt; lia_div)
                   | replace (a <? b)%N with false
                       by (symmetry; apply N.ltb_ge; lia_div) ]
         end;
  cbn [andb orb negb].

(** Turn the conjuncts of the conditions that hold into inequalities. *)
Ltac conditions :=
  repeat match goal with
         | H : _ && _ = true |- _ => apply andb_prop in H as [H ?]
         end;
  repeat match goal with
         | H : (_ <=? _)%N = true |- _ => apply N.leb_le in H
         | H : (_ <? _)%N = true |- _ => apply N.ltb_lt in H
         | H : continuation _ = true |- _ =>
             unfold continuation in H;
             apply andb_prop in H as [H%N.leb_le ?%N.ltb_lt]
         end.

Ltac steps :=
  repeat match goal with
         | |- context [match ?l with [] => _ | _ :: _ => _ end] => destruct l
         | |- context [if ?c then (_, _) else _] => destruct c eqn:?
         end; cbn [fst snd]; conditions.

Lemma decode_cons b0 r :
  decode (b0 :: r)
  = fst (decode_one b0 r) :: decode (drop (snd (decode_one b0 r)) r).
Proof.
  unfold decode_one. cbn [decode].
  destruct (b0 <? 128)%N; [reflexivity |].
  destruct r as [|b1 r1]; [reflexivity |].
  match goal with |- context [if ?c then _ :: _ else _] => destruct c end;
    [reflexivity |].
  destruct r1 as [|b2 r2]; [reflexivity |].
  match goal with |- context [if ?c then _ :: _ else _] => destruct c end;
    [reflexivity |].
  destruct r2 as [|b3 r3]; [reflexivity |].
  match goal with |- context [if ?c then _ :: _ else _] => destruct c end;
    reflexivity.
Qed.

(** Induction along the steps of [decode]. *)
Lemma decode_ind (P : list N -> Prop) :
  P [] ->
  (forall b0 r, P (drop (snd (decode_one b0 r)) r) -> P (b0 :: r)) ->
  forall bs, P bs.
Proof.
  intros H0 Hs bs. remember (length bs) as n eqn:Hn. revert bs Hn.
  induction n as [n IH] using lt_wf_ind. intros [|b0 r] Hn; [exact H0 |].
  apply Hs. apply (IH (length (drop (snd (decode_one b0 r)) r))); [|reflexivity].
  rewrite length_drop. cbn [length] in Hn. lia.
Qed.

(** What a step yields: the byte itself when it is ASCII, otherwise a code
    point from 128 on. *)
Lemma decode_one_ascii b0 r :
  (fst (decode_one b0 r) < 128)%N -> fst (decode_one b0 r) = b0 /\ (b0 < 128)%N.
Proof.
  unfold decode_one, stray.
  destruct (N.ltb_spec b0 128); [auto |]. steps; lia.
Qed.

Lemma decode_one_valid b0 r : (b0 < 256)%N -> valid (fst (decode_one b0 r)).
Proof.
  unfold decode_one, stray, valid. intros Hb.
  destruct (N.ltb_spec b0 128); [cbn [fst]; lia |]. steps; lia.
Qed.

Lemma decode_ascii_in bs c :
  In c (decode bs) -> (c < 128)%N -> In c bs.
Proof.
  induction bs as [|b0 r IH] using decode_ind; [auto |].
  rewrite decode_cons. intros [<-|Hin] Hc.
  - left. now destruct (decode_one_ascii b0 r Hc) as [-> _].
  - right. specialize (IH Hin Hc).
    clear -IH. revert IH. generalize (snd (decode_one b0 r)). intros k.
    revert r. induction k as [|k IHk]; intros [|b r]; cbn; auto.
Qed.

Lemma decode_valid bs :
  Forall (fun b => (b < 256)%N) bs -> Forall valid (decode bs).
Proof.
  induction bs as [|b0 r IH] using decode_ind; [constructor |].
  intros [Hb Hr]%Forall_cons. rewrite decode_cons. constructor.
  - now apply decode_one_valid.
  - apply IH. now apply Forall_drop.
Qed.

Lemma continuation_lower b : continuation (lower_code b) = continuation b.
Proof.
  unfold lower_code.
  destruct ((65 <=? b)%N && (b <=? 90)%N) eqn:E; [|reflexivity].
  apply andb_prop in E as [?%N.leb_le ?%N.leb_le].
  unfold continuation. settle_div. reflexivity.
Qed.

Lemma lower_code_high b : (91 <= b)%N \/ (b < 65)%N -> lower_code b = b.
Proof.
  intros H. unfold lower_code.
  destruct ((65 <=? b)%N && (b <=? 90)%N) eqn:E; [|reflexivity].
  apply andb_prop in E as [?%N.leb_le ?%N.leb_le]. lia.
Qed.

Lemma continuation_high b : continuation b = true -> lower_code b = b.
Proof. intros H. conditions. apply lower_code_high. lia. Qed.

Lemma decode_one_lower b0 r :
  decode_one (lower_code b0) (map lower_code r)
  = (lower_code (fst (decode_one b0 r)), snd (decode_one b0 r)).
Proof.
  destruct (N.ltb_spec b0 128) as [Hb|Hb].
  - unfold decode_one.
    replace (b0 <? 128)%N with true by (symmetry; apply N.ltb_lt; lia).
    replace (lower_code b0 <? 128)%N with true; [reflexivity |].
    symmetry. apply N.ltb_lt. unfold lower_code.
    destruct ((65 <=? b0)%N && (b0 <=? 90)%N) eqn:E; [|exact Hb].
    apply andb_prop in E as [?%N.leb_le ?%N.leb_le]. lia.
  - rewrite (lower_code_high b0) by lia.
    assert (Hhigh : lower_code (fst (decode_one b0 r)) = fst (decode_one b0 r)).
    { apply lower_code_high. left.
      destruct (N.ltb_spec (fst (decode_one b0 r)) 128) as [Hc|Hc]; [|lia].
      apply decode_one_ascii in Hc. lia. }
    rewrite Hhigh, <- surjective_pairing. clear Hhigh.
    unfold decode_one.
    replace (b0 <? 128)%N with false by (symmetry; apply N.ltb_ge; lia).
    destruct r as [|b1 r1]; [reflexivity |]. cbn [map].
    rewrite (continuation_lower b1).
    destruct (continuation b1) eqn:C1.
    2:{ rewrite !andb_false_r. cbn [andb].
        destruct r1 as [|b2 [|b3 r3]]; cbn [map];
          rewrite ?andb_false_r; reflexivity. }
    rewrite (continuation_high b1 C1).
    destruct r1 as [|b2 r2]; [reflexivity |]. cbn [map].
    rewrite (continuation_lower b2).
    destruct (continuation b2) eqn:C2.
    2:{ rewrite !andb_false_r. cbn [andb].
        destruct r2 as [|b3 r3]; cbn [map];
          rewrite ?andb_false_r; reflexivity. }
    rewrite (continuation_high b2 C2).
    destruct r2 as [|b3 r3]; [reflexivity |]. cbn [map].
    rewrite (continuation_lower b3).
    destruct (continuation b3) eqn:C3.
    2:{ rewrite !andb_false_r. reflexivity. }
    rewrite (continuation_high b3 C3). reflexivity.
Qed.

Lemma decode_lower bs :
  decode (map lower_code bs) = map lower_code (decode bs).
Proof.
  induction bs as [|b0 r IH] using decode_ind; [reflexivity |].
  cbn [map]. rewrite !decode_cons, decode_one_lower. cbn [fst snd map].
  f_equal. rewrite <- IH. f_equal. apply skipn_map.
Qed.

(** Encoding and reading back. *)
Lemma decode_encode c bs :
  valid c -> decode (encode c ++ bs) = c :: decode bs.
Proof.
  unfold valid, encode. intros Hc.
  destruct (N.ltb_spec c 128).
  { cbn [app decode].
    now replace (c <? 128)%N with true by (symmetry; apply N.ltb_lt; lia). }
  destruct (N.ltb_spec c 2048).
  { cbn [app decode]. unfold continuation. settle_div.
    f_equal. lia_div. }
  destruct (N.ltb_spec c 65536).
  { cbn [app decode]. unfold continuation. settle_div.
    f_equal. lia_div. }
  cbn [app decode]. unfold continuation. settle_div.
  f_equal. lia_div.
Qed.

Lemma decode_flat_encode l :
  Forall valid l -> decode (flat_map encode l) = l.
Proof.
  induction 1 as [|c l Hc _ IH]; [reflexivity |].
  cbn [flat_map]. now rewrite decode_encode, IH.
Qed.

Lemma encode_bytes c :
  valid c ->
  Forall (fun b => (b < 256)%N /\ ((65 <= b <= 90)%N -> (65 <= c <= 90)%N))
    (encode c).
Proof.
  unfold valid, encode. intros Hc.
  destruct (N.ltb_spec c 128); [repeat constructor; lia |].
  destruct (N.ltb_spec c 2048); [repeat constructor; lia_div |].
  destruct (N.ltb_spec c 65536); repeat constructor; lia_div.
Qed.

Lemma flat_encode_bytes l :
  Forall valid l -> Forall (fun b => (b < 256)%N) (flat_map encode l).
Proof.
  induction 1 as [|c l Hc _ IH]; [constructor |].
  cbn [flat_map]. apply Forall_app. split; [|exact IH].
  apply (Forall_impl _ _ _ (encode_bytes c Hc)). cbn. tauto.
Qed.

Lemma code_ascii_of_N l :
  Forall (fun b => (b < 256)%N) l -> map code (map ascii_of_N l) = l.
Proof.
  induction 1 as [|b l Hb _ IH]; [reflexivity |].
  cbn [map]. rewrite IH. f_equal. now apply N_ascii_embedding.
Qed.

Lemma codepoints_utf8 l : Forall valid l -> codepoints (utf8 l) = l.
Proof.
  intros Hl. unfold codepoints, utf8. rewrite chars_str.
  rewrite code_ascii_of_N by now apply flat_encode_bytes.
  now apply decode_flat_encode.
Qed.

Lemma codepoints_valid s : Forall valid (codepoints s).
Proof.
  unfold codepoints. apply decode_valid.
  induction (chars s) as [|a l IH]; constructor; [apply code_bound | exact IH].
Qed.

Lemma codepoints_lower s :
  codepoints (lower s) = map lower_code (codepoints s).
Proof.
  unfold codepoints. rewrite chars_lower, <- decode_lower. f_equal.
  induction (chars s) as [|a l IH]; [reflexivity |].
  cbn [map]. now rewrite code_lower_char, IH.
Qed.

Lemma lower_char_ascii_of_N b :
  (b < 256)%N -> lower_char (ascii_of_N b) = ascii_of_N (lower_code b).
Proof.
  intros Hb. rewrite <- (ascii_N_embedding (lower_char (ascii_of_N b))).
  f_equal. fold (code (lower_char (ascii_of_N b))).
  rewrite code_lower_char. unfold code. now rewrite N_ascii_embedding.
Qed.

Lemma encode_lower c :
  valid c ->
  map ascii_of_N (encode (lower_code c))
  = map lower_char (map ascii_of_N (encode c)).
Proof.
  intros Hc. unfold lower_code at 1.
  destruct ((65 <=? c)%N && (c <=? 90)%N) eqn:E.
  - apply andb_prop in E as [H1%N.leb_le H2%N.leb_le].
    unfold encode.
    replace (c + 32 <? 128)%N with true by (symmetry; apply N.ltb_lt; lia).
    replace (c <? 128)%N with true by (symmetry; apply N.ltb_lt; lia).
    cbn [map]. rewrite lower_char_ascii_of_N by lia. unfold lower_code.
    now replace ((65 <=? c)%N && (c <=? 90)%N) with true
      by (symmetry; apply andb_true_intro; rewrite !N.leb_le; lia).
  - pose proof (encode_bytes c Hc) as Hb.
    induction Hb as [|b l [Hb Hup] _ IH]; [reflexivity |].
    cbn [map]. rewrite <- IH. f_equal.
    rewrite lower_char_ascii_of_N by exact Hb. f_equal.
    symmetry. apply lower_code_high.
    apply andb_false_iff in E. rewrite !N.leb_gt in E. lia.
Qed.

Lemma utf8_lower l :
  Forall valid l -> utf8 (map lower_code l) = lower (utf8 l).
Proof.
  intros Hl. unfold utf8, lower. rewrite chars_str. f_equal.
  induction Hl as [|c l Hc _ IH]; [reflexivity |].
  cbn [map flat_map]. rewrite !map_app, IH. f_equal. now apply encode_lower.
Qed.

Lemma encode_nonempty c : encode c <> [].
Proof.
  unfold encode. repeat match goal with |- context [if ?b then _ else _] => destruct b end; discriminate.
Qed.

Lemma utf8_nonempty l : utf8 l = "" -> l = [].
Proof.
  destruct l as [|c l]; [reflexivity |]. unfold utf8. cbn [flat_map].
  pose proof (encode_nonempty c) as Hc.
  destruct (encode c) as [|b bs]; [contradiction | discriminate].
Qed.

End Utf8Facts.

(* ===================================================================== *)
(** * Facts about the pattern matcher                                     *)
(* ===================================================================== *)

Section ReFacts.
Import Py Uni Re Notions.

Lemma pushes_NotEntered l : pushes l NotEntered = NotEntered.
Proof. induction l as [|a l IH]; [reflexivity | exact IH]. Qed.

Lemma pushes_Filling l acc : pushes l (Filling acc) = Filling (rev l ++ acc).
Proof.
  revert acc. induction l as [|a l IH]; intros acc; [reflexivity |].
  cbn [pushes fold_left push]. fold (pushes l (Filling (a :: acc))).
  rewrite IH. cbn [rev]. now rewrite <- app_assoc.
Qed.

Lemma pushes_cons a l g : pushes (a :: l) g = pushes l (push a g).
Proof. reflexivity. Qed.

(** What a successful greedy repetition did: it consumed a run of class
    characters and handed the rest to its continuation. *)
Lemma star_inv c k g s r :
  star c k g s = Some r ->
  exists pre post,
    s = pre ++ post /\ forallb c pre = true /\ k (pushes pre g) post = Some r.
Proof.
  revert g. induction s as [|a s IH]; intros g H; cbn [star] in H.
  - exists [], []. auto.
  - destruct (c a) eqn:Hc.
    + destruct (star c k (push a g) s) as [r'|] eqn:Hs.
      * injection H as ->. destruct (IH _ Hs) as (pre & post & -> & Hpre & Hk).
        exists (a :: pre), post. cbn [forallb]. rewrite Hc, Hpre. auto.
      * exists [], (a :: s). auto.
    + exists [], (a :: s). auto.
Qed.

(** Soundness of the matcher for the declarative reading of patterns. *)
Lemma match_here_sound p : forall g s r,
  match_here p g s = Some r ->
  exists u rest, s = u ++ rest /\ accepts p g u r.
Proof.
  induction p as [|e p IH]; intros g s r H.
  - injection H as <-. exists [], s. cbn. auto.
  - destruct e as [c q| |].
    + destruct q.
      * destruct s as [|a s]; [discriminate |]. cbn [match_here] in H.
        destruct (c a) eqn:Hc; [|discriminate].
        destruct (IH _ _ _ H) as (u & rest & -> & Hu).
        exists (a :: u), rest. split; [reflexivity |].
        cbn [accepts]. eauto 6.
      * assert (Hskip : match_here p g s = Some r ->
                        exists u rest, s = u ++ rest /\
                                       accepts (Atom c Opt :: p) g u r).
        { intros H'. destruct (IH _ _ _ H') as (u & rest & -> & Hu).
          exists u, rest. cbn [accepts]. auto. }
        destruct s as [|a s]; [exact (Hskip H) |]. cbn [match_here] in H.
        destruct (c a) eqn:Hc; [|exact (Hskip H)].
        destruct (match_here p (push a g) s) as [r'|] eqn:Hm;
          [|exact (Hskip H)].
        injection H as ->. destruct (IH _ _ _ Hm) as (u & rest & -> & Hu).
        exists (a :: u), rest. split; [reflexivity |].
        cbn [accepts]. right. eauto 6.
      * cbn [match_here] in H.
        destruct (star_inv _ _ _ _ _ H) as (pre & post & -> & Hpre & Hk).
        destruct (IH _ _ _ Hk) as (u & rest & -> & Hu).
        exists (pre ++ u), rest. rewrite <- app_assoc. split; [reflexivity |].
        cbn [accepts]. eauto 6.
      * destruct s as [|a s]; [discriminate |]. cbn [match_here] in H.
        destruct (c a) eqn:Hc; [|discriminate].
        destruct (star_inv _ _ _ _ _ H) as (pre & post & -> & Hpre & Hk).
        destruct (IH _ _ _ Hk) as (u & rest & -> & Hu).
        exists (a :: pre ++ u), rest. cbn [app]. rewrite <- app_assoc.
        split; [reflexivity |]. cbn [accepts]. exists a, pre, u. auto.
    + cbn [match_here] in H. destruct (IH _ _ _ H) as (u & rest & -> & Hu).
      exists u, rest. auto.
    + cbn [match_here] in H. destruct (IH _ _ _ H) as (u & rest & -> & Hu).
      exists u, rest. auto.
Qed.

Lemma leftmost_cons p a s :
  leftmost p (a :: s) =
  match match_here p NotEntered (a :: s) with
  | Some g => Some g
  | None => leftmost p s
  end.
Proof.
  unfold leftmost. cbn [length]. rewrite <- cons_seq.
  change (omap (match_at p (a :: s)) (0%nat :: seq 1 (S (length s))))
    with (match match_at p (a :: s) 0 with
          | Some g => g :: omap (match_at p (a :: s)) (seq 1 (S (length s)))
          | None => omap (match_at p (a :: s)) (seq 1 (S (length s)))
          end).
  unfold match_at at 1. cbn [drop].
  destruct (match_here p NotEntered (a :: s)) as [g|]; [reflexivity |].
  f_equal. rewrite <- seq_shift.
  generalize (seq 0 (S (length s))). intros l.
  induction l as [|i l IHl]; [reflexivity |].
  cbn [map].
  change (omap (match_at p (a :: s)) (S i :: map S l))
    with (match match_at p (a :: s) (S i) with
          | Some g => g :: omap (match_at p (a :: s)) (map S l)
          | None => omap (match_at p (a :: s)) (map S l)
          end).
  change (omap (match_at p s) (i :: l))
    with (match match_at p s i with
          | Some g => g :: omap (match_at p s) l
          | None => omap (match_at p s) l
          end).
  change (match_at p (a :: s) (S i)) with (match_at p s i).
  now rewrite IHl.
Qed.

(** [search] is the leftmost match. *)
Lemma search_leftmost p s : search p s = leftmost p s.
Proof.
  induction s as [|a s IH].
  - cbn [search]. unfold leftmost, match_at. cbn.
    now destruct (match_here p NotEntered []).
  - rewrite leftmost_cons. cbn [search].
    destruct (match_here p NotEntered (a :: s)); [reflexivity | exact IH].
Qed.

(** ** Mapping a character function the classes are blind to *)

Lemma push_map f a g : push (f a) (map_group f g) = map_group f (push a g).
Proof. now destruct g. Qed.

Lemma close_map f g : close (map_group f g) = map_group f (close g).
Proof. destruct g; cbn; [reflexivity | | reflexivity]. now rewrite map_rev. Qed.

Lemma star_map f c (k k' : group -> list N -> option group) :
  (forall a, c (f a) = c a) ->
  (forall g s, k' (map_group f g) (map f s) = option_map (map_group f) (k g s)) ->
  forall s g,
    star c k' (map_group f g) (map f s)
    = option_map (map_group f) (star c k g s).
Proof.
  intros Hc Hk. induction s as [|a s IH]; intros g.
  - cbn [map star]. apply (Hk g []).
  - cbn [map star]. rewrite Hc. destruct (c a); [|apply (Hk g (a :: s))].
    rewrite push_map, IH.
    destruct (star c k (push a g) s); [reflexivity |].
    apply (Hk g (a :: s)).
Qed.

Lemma match_here_map f p :
  Forall (blind f) p ->
  forall g s,
    match_here p (map_group f g) (map f s)
    = option_map (map_group f) (match_here p g s).
Proof.
  induction 1 as [|e p He _ IH]; intros g s; [reflexivity |].
  destruct e as [c q| |]; cbn [blind] in He.
  - destruct q; cbn [match_here].
    + destruct s as [|a s]; [reflexivity |]. cbn [map]. rewrite He.
      destruct (c a); [|reflexivity]. now rewrite push_map, IH.
    + destruct s as [|a s]; [apply (IH g []) |]. cbn [map]. rewrite He.
      destruct (c a); [|apply (IH g (a :: s))].
      rewrite push_map, IH.
      destruct (match_here p (push a g) s); [reflexivity |].
      apply (IH g (a :: s)).
    + now apply star_map.
    + destruct s as [|a s]; [reflexivity |]. cbn [map]. rewrite He.
      destruct (c a); [|reflexivity]. rewrite push_map. now apply star_map.
  - cbn [match_here]. apply (IH (Filling []) s).
  - cbn [match_here]. rewrite close_map. apply IH.
Qed.

Lemma search_map f p s :
  Forall (blind f) p ->
  search p (map f s) = option_map (map_group f) (search p s).
Proof.
  intros Hp. induction s as [|a s IH].
  - pose proof (match_here_map f p Hp NotEntered []) as H.
    cbn [map map_group] in H. cbn [map search].
    destruct (match_here p NotEntered []); [exact H | reflexivity].
  - cbn [map search].
    pose proof (match_here_map f p Hp NotEntered (a :: s)) as H.
    cbn [map_group map] in H. rewrite H.
    destruct (match_here p NotEntered (a :: s)); [reflexivity | exact IH].
Qed.

(** ** What a group can hold *)

Lemma push_Forall P a g :
  P a -> group_Forall P g -> group_Forall P (push a g).
Proof. destruct g; cbn; auto. Qed.

Lemma close_Forall P g : group_Forall P g -> group_Forall P (close g).
Proof. destruct g; cbn; auto. intros H. now apply Forall_rev. Qed.

Lemma pushes_Forall P l : forall g,
  Forall P l -> group_Forall P g -> group_Forall P (pushes l g).
Proof.
  induction l as [|a l IH]; intros g Hl Hg; [exact Hg |].
  apply Forall_cons in Hl as [Ha Hl]. rewrite pushes_cons.
  apply IH; [exact Hl |]. now apply push_Forall.
Qed.

Lemma accepts_Forall P p : forall g u r,
  accepts p g u r ->
  Forall P u -> group_Forall P g -> group_Forall P r.
Proof.
  induction p as [|e p IH]; intros g u r H Hu Hg.
  - destruct H as [_ ->]. exact Hg.
  - destruct e as [c q| |]; cbn [accepts] in H.
    + destruct q.
      * destruct H as (a & u' & -> & _ & H).
        apply Forall_cons in Hu as [Ha Hu].
        apply (IH _ _ _ H Hu). now apply push_Forall.
      * destruct H as [H|(a & u' & -> & _ & H)]; [eauto |].
        apply Forall_cons in Hu as [Ha Hu].
        apply (IH _ _ _ H Hu). now apply push_Forall.
      * destruct H as (pre & u' & -> & _ & H).
        apply Forall_app in Hu as [Hpre Hu].
        apply (IH _ _ _ H Hu). now apply pushes_Forall.
      * destruct H as (a & pre & u' & -> & _ & _ & H).
        apply Forall_cons in Hu as [Ha Hu].
        apply Forall_app in Hu as [Hpre Hu].
        apply (IH _ _ _ H Hu). apply pushes_Forall; [now constructor | exact Hg].
    + apply (IH _ _ _ H Hu). constructor.
    + apply (IH _ _ _ H Hu). now apply close_Forall.
Qed.

(** A group holds characters of the subject only. *)
Lemma search_Forall P p s r :
  search p s = Some r -> Forall P s -> group_Forall P r.
Proof.
  induction s as [|a s IH]; cbn [search];
    destruct (match_here p NotEntered _) as [g|] eqn:E; intros H Hs;
    try discriminate.
  - injection H as <-. apply match_here_sound in E as (u & rest & Hu & E).
    apply (accepts_Forall P _ _ _ _ E); [|exact I].
    destruct u; [constructor | discriminate].
  - injection H as <-. apply match_here_sound in E as (u & rest & Hu & E).
    apply (accepts_Forall P _ _ _ _ E); [|exact I].
    rewrite Hu in Hs. now apply Forall_app in Hs as [? _].
  - apply Forall_cons in Hs as [_ Hs]. auto.
Qed.

End ReFacts.

(* ===================================================================== *)
(** * Facts about [float]                                                 *)
(* ===================================================================== *)

Section FloatFacts.
Import Py.

Lemma iter_pos_invariant {A} (P : A -> Prop) (f : A -> A) :
  (forall x, P x -> P (f x)) -> forall n x, P x -> P (SpecFloat.iter_pos f n x).
Proof.
  intros Hf. induction n as [n IH|n IH|]; intros x Hx; cbn [SpecFloat.iter_pos]; auto.
Qed.

Lemma shr_1_nonneg mrs : 0 <= shr_m mrs -> 0 <= shr_m (shr_1 mrs).
Proof.
  destruct mrs as [m r s]. cbn [shr_m]. intros Hm.
  destruct m as [|[p|p|]|p]; cbn; lia.
Qed.

Lemma shr_fexp_nonneg m e l :
  0 <= m -> 0 <= shr_m (fst (shr_fexp prec emax m e l)).
Proof.
  intros Hm. unfold shr_fexp, shr.
  assert (H0 : 0 <= shr_m (shr_record_of_loc m l))
    by (destruct l as [|[]]; exact Hm).
  destruct (fexp prec emax (Zdigits2 m + e) - e) as [|p|p]; cbn [fst]; auto.
  apply (iter_pos_invariant (fun mrs => 0 <= shr_m mrs)); auto.
  apply shr_1_nonneg.
Qed.

Lemma round_nearest_even_nonneg m l : 0 <= m -> 0 <= round_nearest_even m l.
Proof.
  intros Hm. destruct l as [|[]]; cbn [round_nearest_even]; try lia.
  destruct (Z.even m); lia.
Qed.

(** Rounding a nonnegative mantissa with a clear sign bit yields [+0],
    a positive finite number or [+inf]. *)
Lemma binary_round_aux_nonneg m e l :
  0 <= m -> float_nonneg (binary_round_aux prec emax false m e l) = true.
Proof.
  intros Hm. unfold binary_round_aux.
  pose proof (shr_fexp_nonneg m e l Hm) as H1.
  destruct (shr_fexp prec emax m e l) as [mrs' e'] eqn:E1. cbn [fst] in H1.
  pose proof (shr_fexp_nonneg
                (round_nearest_even (shr_m mrs') (loc_of_shr_record mrs'))
                e' loc_Exact
                (round_nearest_even_nonneg _ _ H1)) as H2.
  destruct (shr_fexp prec emax
              (round_nearest_even (shr_m mrs') (loc_of_shr_record mrs'))
              e' loc_Exact) as [mrs'' e''] eqn:E2.
  cbn [fst] in H2.
  destruct (shr_m mrs'') as [|p|p]; [reflexivity | | lia].
  destruct (e'' <=? emax - prec); reflexivity.
Qed.

(** A decimal numeral without sign converts to a float that is [>= 0]. *)
Lemma float_of_decimal_nonneg n k : float_nonneg (float_of_decimal n k) = true.
Proof.
  unfold float_of_decimal.
  destruct (10 ^ N.of_nat k)%N as [|q] eqn:Hq.
  { exfalso. apply N.pow_nonzero in Hq; [exact Hq | discriminate]. }
  destruct n as [|p]; [reflexivity |].
  cbn [SF_of_N SFdiv xorb]. unfold SFdiv_core_binary.
  set (m' := match _ - _ - _ with Z0 => _ | Zpos _ => _ | Zneg _ => _ end).
  assert (Hm' : 0 <= m').
  { subst m'. destruct (_ - _ - _) as [|s|s]; try lia.
    apply Z.shiftl_nonneg. lia. }
  pose proof (Z.div_pos m' (Z.pos q) Hm' eq_refl) as Hd.
  unfold Z.div in Hd.
  destruct (Z.div_eucl m' (Z.pos q)) as [d r]. cbn [fst] in Hd.
  now apply binary_round_aux_nonneg.
Qed.

End FloatFacts.
(* ===================================================================== *)
(** * Facts about the field parser                                        *)
(* ===================================================================== *)

Section ParserFacts.
Import Py Uni Re Env Services Notions.

Variable U : Unicode.

Lemma iliteral_blind s : Forall (blind lower_code) (iliteral U s).
Proof.
  unfold iliteral. induction (chars s) as [|c l IH]; constructor; auto.
  intros a. apply ichar_lower.
Qed.

Lemma CLAIM_TYPE_RE_blind : Forall (blind lower_code) (CLAIM_TYPE_RE U).
Proof.
  unfold CLAIM_TYPE_RE.
  repeat (apply Forall_app; split); try apply iliteral_blind;
    repeat constructor; intros a;
    auto using ichar_lower, is_space_lower, is_word_lower.
Qed.

Lemma AMOUNT_RE_blind : Forall (blind lower_code) (AMOUNT_RE U).
Proof.
  unfold AMOUNT_RE.
  repeat (apply Forall_app; split); try apply iliteral_blind;
    repeat constructor; intros a;
    auto using ichar_lower, is_space_lower, is_digit_lower,
               digit_or_comma_lower.
Qed.

(** Before the group is entered, consuming characters leaves it so. *)
Lemma accepts_atom_NotEntered c q p u r :
  accepts (Atom c q :: p) NotEntered u r ->
  exists u', accepts p NotEntered u' r.
Proof.
  destruct q; cbn [accepts push].
  - intros (a & u' & _ & _ & H). eauto.
  - intros [H|(a & u' & _ & _ & H)]; eauto.
  - intros (pre & u' & _ & _ & H). rewrite pushes_NotEntered in H. eauto.
  - intros (a & pre & u' & _ & _ & _ & H).
    rewrite pushes_NotEntered in H. eauto.
Qed.

Lemma accepts_iliteral_NotEntered s p u r :
  accepts (iliteral U s ++ p) NotEntered u r ->
  exists u', accepts p NotEntered u' r.
Proof.
  unfold iliteral. revert u. induction (chars s) as [|c l IH]; intros u H.
  - eauto.
  - cbn [map app] in H. apply accepts_atom_NotEntered in H as [u' H]. eauto.
Qed.

Lemma rev_tail3 (p d1 d2 : N) l :
  rev (d2 :: d1 :: p :: rev l ++ []) = l ++ [p; d1; d2].
Proof.
  rewrite app_nil_r.
  change (rev (d2 :: d1 :: p :: rev l))
    with (((rev (rev l) ++ [p]) ++ [d1]) ++ [d2]).
  rewrite rev_involutive, <- !app_assoc. reflexivity.
Qed.

(** The text captured by a match of the amount pattern: a nonempty run of
    digits and commas, a point, two digits. *)
Lemma amount_match_shape s g :
  match_here (AMOUNT_RE U) NotEntered s = Some g ->
  exists a ds d1 d2,
    g = Closed (a :: ds ++ [46%N; d1; d2]) /\
    digit_or_comma U a = true /\ forallb (digit_or_comma U) ds = true /\
    is_digit U d1 = true /\ is_digit U d2 = true.
Proof.
  intros H. apply match_here_sound in H as (u & rest & _ & H).
  unfold AMOUNT_RE in H. apply accepts_iliteral_NotEntered in H as [u1 H].
  cbn [app] in H.
  do 4 (apply accepts_atom_NotEntered in H as [? H]).
  cbn [accepts] in H.
  destruct H as (a & ds & u2 & _ & Ha & Hds & p & u3 & _ & Hp
                 & d1 & u4 & _ & Hd1 & d2 & u5 & _ & Hd2 & _ & ->).
  apply ichar_point in Hp as ->.
  exists a, ds, d1, d2. rewrite pushes_Filling. cbn [push close].
  rewrite rev_tail3. auto.
Qed.

(** The text captured by a match of the claim-type pattern: a nonempty
    run of word characters. *)
Lemma claim_type_match_shape s g :
  match_here (CLAIM_TYPE_RE U) NotEntered s = Some g ->
  exists a ws,
    g = Closed (a :: ws) /\ is_word U a = true /\ forallb (is_word U) ws = true.
Proof.
  intros H. apply match_here_sound in H as (u & rest & _ & H).
  unfold CLAIM_TYPE_RE in H. apply accepts_iliteral_NotEntered in H as [u1 H].
  cbn [app] in H. apply accepts_atom_NotEntered in H as [u2 H].
  apply accepts_iliteral_NotEntered in H as [u3 H].
  cbn [app] in H.
  do 3 (apply accepts_atom_NotEntered in H as [? H]).
  cbn [accepts] in H.
  destruct H as (a & ws & u4 & _ & Ha & Hws & _ & ->).
  exists a, ws. rewrite pushes_Filling. cbn [close].
  rewrite app_nil_r, rev_involutive. auto.
Qed.

Lemma search_some p s g :
  search p s = Some g -> exists s', match_here p NotEntered s' = Some g.
Proof.
  induction s as [|a s IH]; cbn [search];
    destruct (match_here p NotEntered _) eqn:E; intros H.
  - injection H as ->. eauto.
  - discriminate.
  - injection H as ->. eauto.
  - auto.
Qed.

(** ** [float] on a captured amount *)

Lemma filter_not_comma l :
  forallb (digit_or_comma U) l = true ->
  remove_commas l = List.filter (is_digit U) l
  /\ forallb (is_digit U) (List.filter (is_digit U) l) = true.
Proof.
  unfold remove_commas.
  induction l as [|a l IH]; [auto |]. cbn [forallb List.filter].
  intros [Ha Hl]%andb_prop. destruct (IH Hl) as [IH1 IH2].
  unfold digit_or_comma in Ha.
  destruct (is_digit U a) eqn:Hd.
  - rewrite (is_digit_not_comma _ _ Hd). cbn [negb forallb].
    rewrite Hd, IH1, IH2. auto.
  - cbn [orb] in Ha. rewrite Ha. cbn [negb]. auto.
Qed.

Lemma digits_of_filter l :
  digits_of U (List.filter (is_digit U) l) = digits_of U l.
Proof.
  unfold digits_of. induction l as [|a l IH]; [reflexivity |].
  cbn [List.filter]. unfold is_digit at 1.
  change (omap (todecimal U) (a :: l))
    with (match todecimal U a with
          | Some d => d :: omap (todecimal U) l
          | None => omap (todecimal U) l
          end).
  destruct (todecimal U a) as [d|] eqn:Hd; [|exact IH].
  change (omap (todecimal U) (a :: List.filter (is_digit U) l))
    with (match todecimal U a with
          | Some d => d :: omap (todecimal U) (List.filter (is_digit U) l)
          | None => omap (todecimal U) (List.filter (is_digit U) l)
          end).
  now rewrite Hd, IH.
Qed.

Lemma digits_of_app l1 l2 :
  digits_of U (l1 ++ l2) = digits_of U l1 ++ digits_of U l2.
Proof. apply omap_app. Qed.

Lemma split_point_digits ds fr :
  forallb (is_digit U) ds = true ->
  split_point (ds ++ 46%N :: fr) = (ds, Some fr).
Proof.
  induction ds as [|a ds IH]; [reflexivity |]. cbn [forallb app split_point].
  intros [Ha Hds]%andb_prop. rewrite (is_digit_not_point _ _ Ha), (IH Hds).
  reflexivity.
Qed.

Lemma float_digits_point ds d1 d2 :
  forallb (is_digit U) ds = true ->
  is_digit U d1 = true -> is_digit U d2 = true ->
  float U (ds ++ [46%N; d1; d2])
  = Ok (float_of_decimal (N_of_digits (digits_of U (ds ++ [d1; d2]))) 2).
Proof.
  intros Hds Hd1 Hd2. unfold float.
  assert (Hu : float_unsigned U (ds ++ [46%N; d1; d2])
               = Ok (float_of_decimal
                       (N_of_digits (digits_of U (ds ++ [d1; d2]))) 2)).
  { unfold float_unsigned. rewrite (split_point_digits _ _ Hds).
    cbn [default from_option id forallb length]. rewrite Hds, Hd1, Hd2.
    rewrite Nat.add_comm. reflexivity. }
  destruct ds as [|a ds]; [exact Hu |].
  cbn [app]. cbn [forallb] in Hds. apply andb_prop in Hds as [Ha _].
  destruct (is_digit_not_sign _ _ Ha) as [Hm Hp].
  cbn [app] in Hu. rewrite Hm, Hp. exact Hu.
Qed.

Lemma float_of_capture a ds d1 d2 :
  digit_or_comma U a = true -> forallb (digit_or_comma U) ds = true ->
  is_digit U d1 = true -> is_digit U d2 = true ->
  float U (remove_commas (a :: ds ++ [46%N; d1; d2]))
  = Ok (float_of_decimal
          (N_of_digits (digits_of U (a :: ds ++ [46%N; d1; d2]))) 2).
Proof.
  intros Ha Hds Hd1 Hd2.
  assert (Hl : forallb (digit_or_comma U) (a :: ds) = true)
    by (cbn [forallb]; now rewrite Ha, Hds).
  destruct (filter_not_comma _ Hl) as [Hf Hdig].
  assert (Ht1 : remove_commas [46%N; d1; d2] = [46%N; d1; d2]).
  { unfold remove_commas. cbn [List.filter].
    rewrite (is_digit_not_comma _ _ Hd1), (is_digit_not_comma _ _ Hd2).
    reflexivity. }
  assert (Ht2 : digits_of U [46%N; d1; d2] = digits_of U [d1; d2])
    by reflexivity.
  change (a :: ds ++ [46%N; d1; d2]) with ((a :: ds) ++ [46%N; d1; d2]).
  rewrite (digits_of_app (a :: ds)), Ht2, <- (digits_of_filter (a :: ds)),
    <- digits_of_app.
  replace (remove_commas ((a :: ds) ++ [46%N; d1; d2]))
    with (List.filter (is_digit U) (a :: ds) ++ [46%N; d1; d2]).
  - now apply float_digits_point.
  - unfold remove_commas in *. now rewrite List.filter_app, Hf, Ht1.
Qed.

(** ** The parser, in terms of leftmost matches *)

Lemma amount_of_search text :
  match search (AMOUNT_RE U) (codepoints text) with
  | Some m =>
      match group1 m with
      | Some g => x <- float U (remove_commas g) ;; Ok (Some x)
      | None =>
          Raise (AttributeError "'NoneType' object has no attribute 'replace'")
      end
  | None => Ok None
  end
  = Ok (option_map
          (fun cap => float_of_decimal (N_of_digits (digits_of U cap)) 2)
          (first_group (AMOUNT_RE U) text)).
Proof.
  unfold first_group. rewrite <- search_leftmost.
  destruct (search (AMOUNT_RE U) (codepoints text)) as [m|] eqn:Hs;
    [|reflexivity].
  apply search_some in Hs as [s' Hm].
  apply amount_match_shape in Hm as (a & ds & d1 & d2 & -> & Ha & Hds & H1 & H2).
  cbn [group1 mbind option_bind option_map].
  now rewrite float_of_capture.
Qed.

Lemma parse_claim_text_leftmost text :
  parse_claim_text U text
  = Ok {| claim_type := option_map utf8 (first_group (CLAIM_TYPE_RE U) text);
          amount :=
            option_map
              (fun cap => float_of_decimal (N_of_digits (digits_of U cap)) 2)
              (first_group (AMOUNT_RE U) text) |}.
Proof.
  unfold parse_claim_text. rewrite amount_of_search. cbn [bind].
  unfold first_group. rewrite <- !search_leftmost.
  destruct (search (CLAIM_TYPE_RE U) (codepoints text)); reflexivity.
Qed.

(** A captured group consists of code points of the text. *)
Lemma first_group_valid p text cap :
  first_group p text = Some cap -> Forall valid cap.
Proof.
  unfold first_group. rewrite <- search_leftmost.
  destruct (search p (codepoints text)) as [g|] eqn:Hs; [|discriminate].
  apply (search_Forall valid) in Hs; [|apply codepoints_valid].
  destruct g; cbn; try discriminate. now intros [= <-].
Qed.

(** ** Lower-casing the text *)

Lemma first_group_lower p text :
  Forall (blind lower_code) p ->
  first_group p (lower text)
  = option_map (map lower_code) (first_group p text).
Proof.
  intros Hp. unfold first_group. rewrite <- !search_leftmost.
  rewrite codepoints_lower, (search_map _ _ _ Hp).
  destruct (search p (codepoints text)) as [g|]; [|reflexivity].
  destruct g; reflexivity.
Qed.

Lemma digits_of_lower cap : digits_of U (map lower_code cap) = digits_of U cap.
Proof.
  unfold digits_of. induction cap as [|a l IH]; [reflexivity |].
  cbn [map].
  change (omap (todecimal U) (lower_code a :: map lower_code l))
    with (match todecimal U (lower_code a) with
          | Some d => d :: omap (todecimal U) (map lower_code l)
          | None => omap (todecimal U) (map lower_code l)
          end).
  rewrite todecimal_lower, IH. reflexivity.
Qed.

Lemma parse_claim_text_lower text :
  parse_claim_text U (lower text)
  = (r <- parse_claim_text U text ;;
     Ok {| claim_type := option_map lower (claim_type r);
           amount := amount r |}).
Proof.
  rewrite !parse_claim_text_leftmost. cbn [bind claim_type amount].
  rewrite (first_group_lower _ _ CLAIM_TYPE_RE_blind).
  rewrite (first_group_lower _ _ AMOUNT_RE_blind).
  f_equal. f_equal.
  - destruct (first_group (CLAIM_TYPE_RE U) text) as [cap|] eqn:Hc;
      [|reflexivity].
    cbn [option_map]. f_equal. apply utf8_lower.
    now apply (first_group_valid _ _ _ Hc).
  - destruct (first_group (AMOUNT_RE U) text) as [cap|]; [|reflexivity].
    cbn [option_map]. now rewrite digits_of_lower.
Qed.

(** A claim type that is found is a nonempty run of word characters. *)
Lemma claim_type_word text r ct :
  parse_claim_text U text = Ok r -> claim_type r = Some ct ->
  ct <> "" /\ forallb (is_word U) (codepoints ct) = true.
Proof.
  rewrite parse_claim_text_leftmost. intros [= <-]. cbn [claim_type].
  destruct (first_group (CLAIM_TYPE_RE U) text) as [cap|] eqn:Hc;
    [|discriminate].
  intros [= <-]. pose proof (first_group_valid _ _ _ Hc) as Hv.
  unfold first_group in Hc. rewrite <- search_leftmost in Hc.
  destruct (search (CLAIM_TYPE_RE U) (codepoints text)) as [g|] eqn:Hs;
    [|discriminate].
  apply search_some in Hs as [s' Hm].
  apply claim_type_match_shape in Hm as (a & ws & -> & Ha & Hws).
  injection Hc as <-. split.
  - intros He. apply utf8_nonempty in He. discriminate.
  - rewrite codepoints_utf8 by exact Hv. cbn [forallb]. now rewrite Ha, Hws.
Qed.

(** A claim type that is found is never the empty string. *)
Lemma claim_type_nonempty text r ct :
  parse_claim_text U text = Ok r -> claim_type r = Some ct -> ct <> "".
Proof. intros Hp Hct. now destruct (claim_type_word _ _ _ Hp Hct). Qed.

(** An amount that is found is a float [>= 0]. *)
Lemma amount_nonneg text r a :
  parse_claim_text U text = Ok r -> amount r = Some a -> float_nonneg a = true.
Proof.
  rewrite parse_claim_text_leftmost. intros [= <-]. cbn [amount].
  destruct (first_group (AMOUNT_RE U) text); [|discriminate].
  intros [= <-]. apply float_of_decimal_nonneg.
Qed.

End ParserFacts.

(* ===================================================================== *)
(** * Facts about the rate limiter                                        *)
(* ===================================================================== *)

Section RateLimiterFacts.
Import Py RateLimiter Notions.

Lemma Qgtb_true t ws : Qgtb t ws = true <-> (ws < t)%Q.
Proof.
  unfold Qgtb. rewrite negb_true_iff, <- not_true_iff_false, Qle_bool_iff.
  split; [apply Qnot_le_lt | apply Qlt_not_le].
Qed.

Lemma Qgtb_false t ws : Qgtb t ws = false <-> (t <= ws)%Q.
Proof. unfold Qgtb. rewrite negb_false_iff. apply Qle_bool_iff. Qed.

(** Nothing is pruned from a window whose entries are all younger than
    sixty seconds. *)
Lemma live_all now w :
  (forall t, In t w -> (now - 60 < t)%Q) -> live now w = w.
Proof.
  unfold live. induction w as [|t w IH]; intros H; [reflexivity |].
  cbn [List.filter].
  rewrite (proj2 (Qgtb_true t (now - 60)) (H t (or_introl eq_refl))).
  f_equal. apply IH. intros t' Ht'. apply H. now right.
Qed.

Lemma live_In now w t : In t (live now w) <-> In t w /\ (now - 60 < t)%Q.
Proof. unfold live. rewrite filter_In, Qgtb_true. reflexivity. Qed.

(** The branch that lets the request through. *)
Lemma rate_limiter_allows request api_key now iso st :
  (length (live now (window st (rate_key request api_key))) < RATE_LIMIT)%nat ->
  rate_limiter request api_key now iso st
  = (Ok tt,
     {| call_log :=
          <[rate_key request api_key :=
              live now (window st (rate_key request api_key)) ++ [now]]>
            (call_log st);
        block_log := block_log st |}).
Proof.
  intros H. unfold rate_limiter. fold (rate_key request api_key).
  fold (window st (rate_key request api_key)).
  fold (live now (window st (rate_key request api_key))).
  apply Nat.leb_gt in H. rewrite H. now rewrite insert_insert_eq.
Qed.

(** The refusing branch: building the block event raises before anything
    is appended to [block_log] and before the 429 is raised. *)
Lemma rate_limiter_refuses request api_key now iso st :
  (RATE_LIMIT <= length (live now (window st (rate_key request api_key))))%nat ->
  rate_limiter request api_key now iso st
  = (Raise (AttributeError
              "type object 'datetime.datetime' has no attribute 'timezone'"),
     {| call_log :=
          <[rate_key request api_key :=
              live now (window st (rate_key request api_key))]>
            (call_log st);
        block_log := block_log st |}).
Proof.
  intros H. unfold rate_limiter. fold (rate_key request api_key).
  fold (window st (rate_key request api_key)).
  fold (live now (window st (rate_key request api_key))).
  apply Nat.leb_le in H. rewrite H. reflexivity.
Qed.

Lemma window_after_insert st key w bl :
  window {| call_log := <[key := w]> (call_log st); block_log := bl |} key = w.
Proof. unfold window. cbn [call_log]. apply lookup_total_insert_eq. Qed.

(** A run of requests that all lie within sixty seconds of each other and
    of everything already on record: nothing is pruned, and a request is
    let through exactly while fewer than [RATE_LIMIT] timestamps are on
    record. *)
Lemma issue_close request api_key iso times : forall st,
  (forall t t', In t (window st (rate_key request api_key)) -> In t' times ->
                (t' - 60 < t)%Q) ->
  (forall t t', In t times -> In t' times -> (t' - 60 < t)%Q) ->
  map is_ok (fst (issue request api_key iso times st))
  = map (fun i => (length (window st (rate_key request api_key)) + i
                   <? RATE_LIMIT)%nat)
        (seq 0 (length times))
  /\ window (snd (issue request api_key iso times st))
            (rate_key request api_key)
     = window st (rate_key request api_key)
       ++ firstn (RATE_LIMIT - length (window st (rate_key request api_key)))
                 times.
Proof.
  set (key := rate_key request api_key).
  induction times as [|now times IH]; intros st Hw Ht.
  - cbn. rewrite firstn_nil, app_nil_r. auto.
  - assert (Hlive : live now (window st key) = window st key).
    { apply live_all. intros t Hin. apply (Hw t now Hin). now left. }
    cbn [issue length]. rewrite <- cons_seq, <- seq_shift. cbn [map]. rewrite List.map_map.
    cbn [map]. rewrite Nat.add_0_r.
    destruct (Nat.ltb_spec (length (window st key)) RATE_LIMIT) as [Hlt|Hge].
    + rewrite (rate_limiter_allows _ _ _ _ _
                 (eq_ind_r (fun l => (length l < RATE_LIMIT)%nat) Hlt Hlive)).
      fold key. rewrite Hlive.
      set (st' := {| call_log := _; block_log := _ |}).
      assert (Hw' : window st' key = window st key ++ [now])
        by apply window_after_insert.
      specialize (IH st'). rewrite Hw' in IH.
      destruct IH as [IH1 IH2].
      { intros t t' [Hin| [<-|[]]]%in_app_or Hin'.
        - apply (Hw t t' Hin). now right.
        - apply Ht; [now left | now right]. }
      { intros t t' Hin Hin'. apply Ht; now right. }
      destruct (issue request api_key iso times st') as [rs st''].
      cbn [fst snd map is_ok] in *. split.
      * f_equal. rewrite IH1. apply map_ext. intros i.
        rewrite length_app. cbn [length]. f_equal. lia.
      * rewrite IH2, <- app_assoc. f_equal. rewrite length_app. cbn [length].
        destruct (RATE_LIMIT - length (window st key))%nat as [|k] eqn:Hk;
          [lia |].
        cbn [firstn app]. do 2 f_equal. lia.
    + rewrite (rate_limiter_refuses _ _ _ _ _
                 (eq_ind_r (fun l => (RATE_LIMIT <= length l)%nat) Hge Hlive)).
      fold key. rewrite Hlive.
      set (st' := {| call_log := _; block_log := _ |}).
      assert (Hw' : window st' key = window st key)
        by apply window_after_insert.
      specialize (IH st'). rewrite Hw' in IH.
      destruct IH as [IH1 IH2].
      { intros t t' Hin Hin'. apply (Hw t t' Hin). now right. }
      { intros t t' Hin Hin'. apply Ht; now right. }
      destruct (issue request api_key iso times st') as [rs st''].
      cbn [fst snd map is_ok] in *. split.
      * f_equal. rewrite IH1. apply map_ext. intros i.
        destruct (Nat.ltb_spec (length (window st key) + i) RATE_LIMIT);
          destruct (Nat.ltb_spec (length (window st key) + S i) RATE_LIMIT);
          try reflexivity; lia.
      * rewrite IH2.
        replace (RATE_LIMIT - length (window st key))%nat with 0%nat by lia.
        reflexivity.
Qed.

(** The step of the limiter, by cases on the number of kept timestamps. *)
Lemma rate_limiter_step request api_key now iso st :
  let key := rate_key request api_key in
  let kept := live now (window st key) in
  ((length kept < RATE_LIMIT)%nat ->
   fst (rate_limiter request api_key now iso st) = Ok tt /\
   window (snd (rate_limiter request api_key now iso st)) key = kept ++ [now])
  /\
  ((RATE_LIMIT <= length kept)%nat ->
   is_ok (fst (rate_limiter request api_key now iso st)) = false /\
   window (snd (rate_limiter request api_key now iso st)) key = kept).
Proof.
  cbn zeta. split; intros H.
  - rewrite (rate_limiter_allows _ _ _ _ _ H). cbn [fst snd].
    split; [reflexivity | apply window_after_insert].
  - rewrite (rate_limiter_refuses _ _ _ _ _ H). cbn [fst snd is_ok].
    split; [reflexivity | apply window_after_insert].
Qed.

(** The windows of other callers are not touched. *)
Lemma rate_limiter_other_caller request api_key now iso st key' :
  key' <> rate_key request api_key ->
  window (snd (rate_limiter request api_key now iso st)) key' = window st key'.
Proof.
  intros Hne.
  destruct (Nat.lt_ge_cases
              (length (live now (window st (rate_key request api_key))))
              RATE_LIMIT) as [H|H].
  - rewrite (rate_limiter_allows _ _ _ _ _ H). unfold window. cbn.
    now rewrite lookup_total_insert_ne.
  - rewrite (rate_limiter_refuses _ _ _ _ _ H). unfold window. cbn.
    now rewrite lookup_total_insert_ne.
Qed.

(** A full window whose oldest entry alone has reached sixty seconds. *)
Lemma rate_limiter_recovers request api_key iso t0 rest now st :
  let key := rate_key request api_key in
  window st key = t0 :: rest ->
  S (length rest) = RATE_LIMIT ->
  (t0 <= now - 60)%Q ->
  (forall t, In t rest -> (now - 60 < t)%Q) ->
  fst (rate_limiter request api_key now iso st) = Ok tt /\
  window (snd (rate_limiter request api_key now iso st)) key = rest ++ [now] /\
  forall now' iso',
    (forall t, In t (rest ++ [now]) -> (now' - 60 < t)%Q) ->
    is_ok (fst (rate_limiter request api_key now' iso'
                  (snd (rate_limiter request api_key now iso st)))) = false.
Proof.
  cbn zeta. set (key := rate_key request api_key).
  intros Hw Hlen Ht0 Hrest.
  assert (Hlive : live now (window st key) = rest).
  { rewrite Hw. unfold live. cbn [List.filter].
    rewrite (proj2 (Qgtb_false t0 (now - 60)) Ht0). now apply live_all. }
  destruct (rate_limiter_step request api_key now iso st) as [Hstep _].
  fold key in Hstep. rewrite Hlive in Hstep.
  destruct Hstep as [Hok Hw']; [lia |].
  split; [exact Hok |]. split; [exact Hw' |].
  intros now' iso' Hall.
  destruct (rate_limiter_step request api_key now' iso'
              (snd (rate_limiter request api_key now iso st))) as [_ Hstep].
  fold key in Hstep. rewrite Hw', (live_all _ _ Hall) in Hstep.
  apply Hstep. rewrite length_app. cbn [length]. lia.
Qed.

End RateLimiterFacts.

(* ===================================================================== *)
(** * Facts about the text extractor                                      *)
(* ===================================================================== *)

Section ExtractorFacts.
Import Py Env Services Notions.

Lemma comprehension_ok {A B} (f : A -> result B) xs ys :
  Forall2 (fun x y => f x = Ok y) xs ys -> comprehension f xs = Ok ys.
Proof.
  induction 1 as [|x y xs ys Hx _ IH]; [reflexivity |].
  cbn [comprehension bind]. rewrite Hx, IH. reflexivity.
Qed.

(** The first element that raises aborts the comprehension; the values
    already computed are dropped. *)
Lemma comprehension_raise {A B} (f : A -> result B) pre ys x e post :
  Forall2 (fun x y => f x = Ok y) pre ys -> f x = Raise e ->
  comprehension f (pre ++ x :: post) = Raise e.
Proof.
  intros Hpre Hx. induction Hpre as [|x' y' xs' ys' Hx' _ IH].
  - cbn [app comprehension bind]. now rewrite Hx.
  - cbn [app comprehension bind]. now rewrite Hx', IH.
Qed.

Lemma extract_image w fs path :
  file_ext w path ∈ [".png"; ".jpg"; ".jpeg"] ->
  extract_text_from_file w fs path
  = try_except
      (data <- read_bytes fs path ;; img <- Image_open w data ;;
       image_to_string w img)
      (fun e => Raise (extraction_failed w e)).
Proof.
  intros H. unfold extract_text_from_file. fold (file_ext w path).
  now rewrite (bool_decide_eq_true_2 _ H).
Qed.

Lemma extract_pdf w fs path :
  file_ext w path = ".pdf" ->
  extract_text_from_file w fs path
  = try_except
      (data <- read_bytes fs path ;; pages <- convert_from_path w data ;;
       texts <- comprehension (image_to_string w) pages ;;
       Ok (join (String (ascii_of_nat 10) "") texts))
      (fun e => Raise (extraction_failed w e)).
Proof.
  intros H. unfold extract_text_from_file. fold (file_ext w path).
  rewrite H. reflexivity.
Qed.

Lemma extract_txt w fs path :
  file_ext w path = ".txt" ->
  extract_text_from_file w fs path
  = try_except (data <- read_bytes fs path ;; read_text w data)
      (fun e => Raise (extraction_failed w e)).
Proof.
  intros H. unfold extract_text_from_file. fold (file_ext w path).
  rewrite H. reflexivity.
Qed.

(** Any other extension: the 400 raised in the [else] branch is caught
    by the [except Exception] of the same function. *)
Lemma extract_unsupported w fs path :
  file_ext w path ∉ [".png"; ".jpg"; ".jpeg"; ".pdf"; ".txt"] ->
  extract_text_from_file w fs path
  = Raise (extraction_failed w
             (HTTPException 400
                (DStr ("Unsupported file type: " +:+ file_ext w path)))).
Proof.
  intros H. unfold extract_text_from_file. fold (file_ext w path).
  rewrite !bool_decide_eq_false_2; [reflexivity | | |];
    intros Hin; apply H; rewrite !elem_of_cons in *; tauto.
Qed.

(** Whatever goes wrong, the caller of the extractor sees one kind of
    exception. *)
Lemma extract_failure_kind w fs path e :
  extract_text_from_file w fs path = Raise e ->
  exists cause, e = extraction_failed w cause.
Proof.
  unfold extract_text_from_file, try_except.
  match goal with |- match ?b with _ => _ end = _ -> _ => destruct b end;
    [discriminate |].
  intros [= <-]. eauto.
Qed.

(** The result depends on the path only through the extension and the
    bytes stored there. *)
Lemma extract_same_ext w (fs : FileSystem) p1 p2 :
  file_ext w p1 = file_ext w p2 -> fs !! p1 = fs !! p2 ->
  extract_text_from_file w fs p1 = extract_text_from_file w fs p2.
Proof.
  intros He Hf. unfold extract_text_from_file, read_bytes.
  fold (file_ext w p1). fold (file_ext w p2). now rewrite He, Hf.
Qed.

End ExtractorFacts.

(* ===================================================================== *)
(** * Facts about the upload and analysis handlers                        *)
(* ===================================================================== *)

Section HandlerFacts.
Import Py Env Services Main Notions.

(** What the [except Exception] of [upload_file] raises. *)
Lemma upload_failure_kind {A} w file
  (rest : FileSystem -> result A * FileSystem) fs e :
  fst (upload_file w file rest fs) = Raise e ->
  e = HTTPException 500
        (DErr "UPLOAD_FAILED" "File upload failed due to an internal error.").
Proof.
  unfold upload_file.
  match goal with
  | |- fst (let '(body, fs') := ?b in _) = _ -> _ => destruct b as [[a|e'] fs']
  end; cbn [fst try_except]; [discriminate | now intros [= <-]].
Qed.



(** ** [analyze_claim] *)

(** The setters touch one field each. *)
Lemma apply_parsed_fields parsed c :
  document_path (apply_parsed parsed c) = document_path c /\
  ocr_text (apply_parsed parsed c) = ocr_text c /\
  Main.claim_type (apply_parsed parsed c)
    = default (Main.claim_type c) (Services.claim_type parsed) /\
  Main.amount (apply_parsed parsed c)
    = default (Main.amount c) (Services.amount parsed).
Proof.
  unfold apply_parsed.
  destruct (Services.claim_type parsed), (Services.amount parsed);
    cbn; auto.
Qed.

(** The body of the [try] once extraction has succeeded. *)
Lemma analyze_body_ok w fs claim_id claim path db text parsed :
  extract_text_from_file w fs path = Ok text ->
  parse_claim_text (unicode w) text = Ok parsed ->
  analyze_body w fs claim_id claim path db
  = (Ok {| resp_claim_id := claim_id; source_file := path;
           extracted_text := text |},
     let first := set_ocr_text text claim in
     match Services.claim_type parsed, Services.amount parsed with
     | None, None => commit claim_id first db
     | _, _ =>
         commit claim_id (apply_parsed parsed first) (commit claim_id first db)
     end).
Proof.
  intros He Hp. unfold analyze_body. rewrite He, Hp.
  unfold refresh. cbn [commit rows]. rewrite lookup_insert_eq.
  cbn [default from_option id].
  unfold apply_parsed.
  destruct (Services.claim_type parsed) as [ct|] eqn:Hct.
  - pose proof (claim_type_nonempty _ _ _ _ Hp Hct) as Hne.
    rewrite (bool_decide_eq_false_2 _ Hne).
    destruct (Services.amount parsed); reflexivity.
  - destruct (Services.amount parsed); reflexivity.
Qed.

Lemma analyze_body_fails w fs claim_id claim path db e :
  extract_text_from_file w fs path = Raise e ->
  analyze_body w fs claim_id claim path db = (Raise e, db).
Proof. intros He. unfold analyze_body. now rewrite He. Qed.

(** The handler on a claim whose document is on disk. *)
Lemma analyze_claim_found w (fs : FileSystem) claim_id db claim path :
  rows db !! claim_id = Some claim ->
  document_path claim = Some path -> path <> "" -> is_Some (fs !! path) ->
  analyze_claim w fs claim_id db
  = (try_except (fst (analyze_body w fs claim_id claim path db))
       (fun e =>
          Raise (HTTPException 500
                   (DStr "OCR analysis failed. Please check the uploaded file format or contents."))),
     snd (analyze_body w fs claim_id claim path db)).
Proof.
  intros Hrow Hdoc Hne Hex. unfold analyze_claim, get_claim_or_404.
  rewrite Hrow, Hdoc. rewrite (bool_decide_eq_false_2 _ Hne).
  unfold exists_. rewrite (bool_decide_eq_true_2 _ Hex). cbn [orb negb].
  now destruct (analyze_body w fs claim_id claim path db).
Qed.

(** In every other case the handler answers 404 and leaves the database
    as it was. *)
Lemma analyze_claim_not_found w (fs : FileSystem) claim_id db :
  match rows db !! claim_id with
  | Some claim =>
      match document_path claim with
      | Some path => path = "" \/ fs !! path = None
      | None => True
      end
  | None => True
  end ->
  snd (analyze_claim w fs claim_id db) = db /\
  is_ok (fst (analyze_claim w fs claim_id db)) = false.
Proof.
  unfold analyze_claim, get_claim_or_404.
  destruct (rows db !! claim_id) as [claim|]; [|auto].
  destruct (document_path claim) as [path|]; [|auto].
  intros H.
  assert (Hb : bool_decide (path = "") || negb (exists_ fs path) = true).
  { destruct H as [->|Hnone]; [reflexivity |].
    unfold exists_. rewrite Hnone.
    rewrite (bool_decide_eq_false_2 (is_Some None)); [|apply is_Some_None].
    apply orb_true_r. }
  rewrite Hb. auto.
Qed.

End HandlerFacts.

(* ===================================================================== *)
(** * The field parser: totality, reference inputs, matching rules        *)
(* ===================================================================== *)

Section ParserClaims.
Import Py Uni Re Services Notions Samples.

(** C7. [parse_claim_text] returns a record on every input, never an
    exception, a missing field being [None], whatever the character
    database says of the characters beyond ASCII; on the two reference
    inputs it returns [Travel] with [120.0], and [Auto] with no amount;
    each field is group 1 of the leftmost match of its pattern, the amount
    being the float of the captured digits once commas are dropped;
    lower-casing the ASCII letters of the text changes nothing but the
    case of the claim type; a comma-grouped, differently-cased sample
    parses accordingly; and accented letters, a no-break space and
    full-width digits are read as word characters, blank and digits. *)
Theorem parse_claim_text_total :
  (forall U text, exists ct am,
      parse_claim_text U text = Ok {| claim_type := ct; amount := am |}) /\
  (forall U,
      parse_claim_text U travel_text
      = Ok {| claim_type := Some "Travel";
              amount := Some (float_of_Z 120) |}) /\
  (forall U,
      parse_claim_text U "Claim Type: Auto"
      = Ok {| claim_type := Some "Auto"; amount := None |}) /\
  (forall U text,
      parse_claim_text U text
      = Ok {| claim_type :=
                option_map utf8 (first_group (CLAIM_TYPE_RE U) text);
              amount :=
                option_map
                  (fun cap =>
                     float_of_decimal (N_of_digits (digits_of U cap)) 2)
                  (first_group (AMOUNT_RE U) text) |}) /\
  (forall U text,
      parse_claim_text U (lower text)
      = (r <- parse_claim_text U text ;;
         Ok {| claim_type := option_map lower (claim_type r);
               amount := amount r |})) /\
  (forall U,
      parse_claim_text U
        "claim type : Home AMOUNT:$1,234.50 Claim Type: Auto Amount: 7.00"
      = Ok {| claim_type := Some "Home";
              amount := Some (float_of_decimal 123450 2) |}) /\
  parse_claim_text ucd_excerpt "Claim Type: Café au lait"
  = Ok {| claim_type := Some "Café"; amount := None |} /\
  parse_claim_text ucd_excerpt "Claim Type: Überfall Amount: １２０.００"
  = Ok {| claim_type := Some "Überfall"; amount := Some (float_of_Z 120) |}.
Proof.
  split; [|split; [|split; [|split; [|split; [|split; [|split]]]]]].
  - intros U text. rewrite parse_claim_text_leftmost. eauto.
  - intros U. vm_compute. reflexivity.
  - intros U. vm_compute. reflexivity.
  - apply parse_claim_text_leftmost.
  - apply parse_claim_text_lower.
  - intros U. vm_compute. reflexivity.
  - vm_compute. reflexivity.
  - vm_compute. reflexivity.
Qed.

(** C10. An amount returned by the parser is a float [>= 0], in whatever
    script its digits are written: the pattern has no place for a sign.
    A minus-signed figure yields no amount, unless a later unsigned figure
    matches. *)
Theorem parsed_amount_nonnegative :
  (forall U text r a,
      parse_claim_text U text = Ok r -> amount r = Some a ->
      float_nonneg a = true) /\
  (forall U,
      parse_claim_text U "Amount: -120.00"
      = Ok {| claim_type := None; amount := None |}) /\
  (forall U,
      parse_claim_text U "Amount: -120.00 Amount: 5.00"
      = Ok {| claim_type := None; amount := Some (float_of_Z 5) |}) /\
  parse_claim_text ucd_excerpt "Amount: -５.００"
  = Ok {| claim_type := None; amount := None |} /\
  parse_claim_text ucd_excerpt "Amount: ５.００"
  = Ok {| claim_type := None; amount := Some (float_of_Z 5) |}.
Proof.
  split; [exact amount_nonneg |].
  repeat split; try intros U; vm_compute; reflexivity.
Qed.

Lemma parsed_amount_nonnegative_witness :
  float_nonneg (float_of_Z 5) = true.
Proof.
  apply (proj1 parsed_amount_nonnegative ucd_excerpt
           "Amount: -120.00 Amount: ５.００"
           {| claim_type := None; amount := Some (float_of_Z 5) |});
    vm_compute; reflexivity.
Defined.

End ParserClaims.

(* ===================================================================== *)
(** * The text extractor: dispatch, PDF pages, failures                   *)
(* ===================================================================== *)

Section ExtractorClaims.
Import Py Env Services Notions Samples.

Lemma append_empty_r s : (s +:+ "")%string = s.
Proof.
  induction s as [|a s IH]; [reflexivity |].
  change (String a (s +:+ "") = String a s). now f_equal.
Qed.

Lemma join_pages sep s rest :
  join sep (s :: rest)
  = (s +:+ fold_right (fun t acc => sep +:+ t +:+ acc) "" rest)%string.
Proof.
  revert s. induction rest as [|t rest IH]; intros s.
  - cbn [join fold_right]. now rewrite append_empty_r.
  - change (join sep (s :: t :: rest)) with (s +:+ sep +:+ join sep (t :: rest)).
    now rewrite IH.
Qed.

(** C8. For a document that takes the PDF route, whose pages OCR to
    [texts] in page order, the extracted text is the page texts in that
    order with one newline between consecutive pages. *)
Theorem pdf_pages_joined_in_order w (fs : FileSystem) path data pages texts :
  file_ext w path = ".pdf" ->
  fs !! path = Some data ->
  convert_from_path w data = Ok pages ->
  Forall2 (fun page s => image_to_string w page = Ok s) pages texts ->
  extract_text_from_file w fs path = Ok (join newline texts) /\
  join newline texts
  = match texts with
    | [] => ""
    | s1 :: rest =>
        s1 +:+ fold_right (fun s acc => newline +:+ s +:+ acc) "" rest
    end.
Proof.
  intros Hext Hfs Hconv Hocr. split.
  - rewrite (extract_pdf _ _ _ Hext). unfold read_bytes. rewrite Hfs.
    cbn [bind]. rewrite Hconv. cbn [bind].
    rewrite (comprehension_ok _ _ _ Hocr). reflexivity.
  - destruct texts as [|s1 rest]; [reflexivity | apply join_pages].
Qed.

Lemma pdf_pages_joined_in_order_witness :
  extract_text_from_file toy_world sample_fs "uploads/abc.pdf"
  = Ok ("A" +:+ newline +:+ "B" +:+ newline +:+ "C").
Proof.
  apply (proj1 (pdf_pages_joined_in_order toy_world sample_fs
                  "uploads/abc.pdf" "%PDFABC"
                  [Raster "A"; Raster "B"; Raster "C"] ["A"; "B"; "C"]
                  eq_refl eq_refl eq_refl
                  ltac:(repeat constructor))).
Defined.

(** C5, as stated, fails: the same bytes, sniffed as the same type,
    stored once as [.txt], once as [.pdf] and once as [.bin], do not
    extract alike. *)
Lemma extraction_depends_on_extension :
  sample_fs !! "uploads/travel.txt" = Some travel_text /\
  sample_fs !! "uploads/travel.pdf" = Some travel_text /\
  magic_from_file toy_world travel_text = "text/plain" /\
  extract_text_from_file toy_world sample_fs "uploads/travel.txt"
  = Ok travel_text /\
  extract_text_from_file toy_world sample_fs "uploads/travel.pdf"
  = Raise (HTTPException 500
             (DStr "Failed to extract text: Unable to get page count.")) /\
  sample_fs !! "uploads/claim.bin" = Some travel_text /\
  is_ok (extract_text_from_file toy_world sample_fs "uploads/claim.bin")
  = false.
Proof. repeat split; vm_compute; reflexivity. Qed.

(** C5, amended. The route is chosen by the lower-cased extension of the
    stored path: image OCR for [.png], [.jpg], [.jpeg]; page-by-page OCR
    for [.pdf]; decoding for [.txt]; failure for anything else.  Two
    paths with the same extension and the same bytes extract alike. *)
Theorem extraction_selected_by_extension w (fs : FileSystem) path :
  (file_ext w path ∈ [".png"; ".jpg"; ".jpeg"] ->
   extract_text_from_file w fs path
   = try_except
       (data <- read_bytes fs path ;; img <- Image_open w data ;;
        image_to_string w img)
       (fun e => Raise (extraction_failed w e))) /\
  (file_ext w path = ".pdf" ->
   extract_text_from_file w fs path
   = try_except
       (data <- read_bytes fs path ;; pages <- convert_from_path w data ;;
        texts <- comprehension (image_to_string w) pages ;;
        Ok (join newline texts))
       (fun e => Raise (extraction_failed w e))) /\
  (file_ext w path = ".txt" ->
   extract_text_from_file w fs path
   = try_except (data <- read_bytes fs path ;; read_text w data)
       (fun e => Raise (extraction_failed w e))) /\
  (file_ext w path ∉ [".png"; ".jpg"; ".jpeg"; ".pdf"; ".txt"] ->
   is_ok (extract_text_from_file w fs path) = false) /\
  (forall path',
      file_ext w path' = file_ext w path -> fs !! path' = fs !! path ->
      extract_text_from_file w fs path' = extract_text_from_file w fs path).
Proof.
  split; [apply extract_image |]. split; [apply extract_pdf |].
  split; [apply extract_txt |]. split.
  - intros H. now rewrite (extract_unsupported _ _ _ H).
  - intros path'. apply extract_same_ext.
Qed.

Lemma extraction_selected_by_extension_witness :
  extract_text_from_file toy_world sample_fs "uploads/travel.txt"
  = Ok travel_text.
Proof.
  rewrite (proj1 (proj2 (proj2 (extraction_selected_by_extension
                                  toy_world sample_fs "uploads/travel.txt")))
             eq_refl).
  reflexivity.
Defined.

(** C6, evaluated where the code departs from it: an unsupported
    extension and a failing rasterizer both surface as the same
    [HTTPException] with status 500 and a "Failed to extract text"
    detail; the 400 raised for the unsupported extension does not leave
    the function.  No failure returns text. *)
Theorem extraction_failures_share_one_kind :
  (forall w fs path,
      match extract_text_from_file w fs path with
      | Ok _ => True
      | Raise e => exists cause, e = extraction_failed w cause
      end) /\
  extract_text_from_file toy_world sample_fs "uploads/claim.bin"
  = Raise (HTTPException 500
             (DStr "Failed to extract text: 400: Unsupported file type: .bin")) /\
  extract_text_from_file toy_world sample_fs "uploads/travel.pdf"
  = Raise (HTTPException 500
             (DStr "Failed to extract text: Unable to get page count.")).
Proof.
  split.
  - intros w fs path.
    destruct (extract_text_from_file w fs path) eqn:E; [exact I |].
    exact (extract_failure_kind _ _ _ _ E).
  - split; vm_compute; reflexivity.
Qed.

End ExtractorClaims.

(* ===================================================================== *)
(** * The rate limiter: admission, pruning, denial                        *)
(* ===================================================================== *)

Section RateLimiterClaims.
Import Py RateLimiter Notions Samples.

(** C2, as stated, fails at the boundary: with thirty requests on record
    at reading [t0], a request at reading [t0 + 60] finds them exactly
    sixty seconds old, within [[now - 60s, now]] and not older than
    [now - 60s]; the limiter prunes all thirty and allows it, and allows
    the next one as well. *)
Lemma sliding_window_boundary_counterexample :
  window thirty_at_t0 (rate_key caller "k") = repeat t0 30 /\
  within_window (t0 + 60) t0 = true /\
  live (t0 + 60) (window thirty_at_t0 (rate_key caller "k")) = [] /\
  map is_ok (fst (issue caller "k" clock [t0 + 60; t0 + 60]%Q thirty_at_t0))
  = [true; true].
Proof. repeat split; vm_compute; reflexivity. Qed.

(** C2, amended. For one caller: the state starts empty; a call at
    reading [now] keeps exactly the recorded timestamps [t] with
    [t > now - 60], each occurrence counting, allows the request and
    records [now] when fewer than thirty are kept, and refuses it
    otherwise; requests that lie pairwise less than sixty seconds apart,
    starting from an empty window, are allowed for the first thirty and
    refused from the thirty-first on; and once the oldest of thirty
    recorded timestamps is sixty seconds old or more while the others are
    not, exactly one more request is allowed; the windows of other
    callers are left alone. *)
Theorem sliding_window_admission request api_key iso :
  let key := rate_key request api_key in
  RATE_LIMIT = 30%nat /\
  window initial key = [] /\
  (forall now st t,
      In t (live now (window st key))
      <-> In t (window st key) /\ (now - 60 < t)%Q) /\
  (forall now st,
      let out := rate_limiter request api_key now (iso now) st in
      let kept := live now (window st key) in
      ((length kept < RATE_LIMIT)%nat ->
       fst out = Ok tt /\ window (snd out) key = kept ++ [now]) /\
      ((RATE_LIMIT <= length kept)%nat ->
       is_ok (fst out) = false /\ window (snd out) key = kept)) /\
  (forall times st,
      window st key = [] ->
      (forall t t', In t times -> In t' times -> (t' - 60 < t)%Q) ->
      map is_ok (fst (issue request api_key iso times st))
      = map (fun i => (i <? RATE_LIMIT)%nat) (seq 0 (length times))) /\
  (forall t0 rest now st,
      window st key = t0 :: rest ->
      S (length rest) = RATE_LIMIT ->
      (t0 <= now - 60)%Q ->
      (forall t, In t rest -> (now - 60 < t)%Q) ->
      let st' := snd (rate_limiter request api_key now (iso now) st) in
      fst (rate_limiter request api_key now (iso now) st) = Ok tt /\
      window st' key = rest ++ [now] /\
      forall now',
        (forall t, In t (rest ++ [now]) -> (now' - 60 < t)%Q) ->
        is_ok (fst (rate_limiter request api_key now' (iso now') st')) = false) /\
  (forall now st key',
      key' <> key ->
      window (snd (rate_limiter request api_key now (iso now) st)) key'
      = window st key').
Proof.
  cbn zeta. split; [reflexivity |]. split; [reflexivity |].
  split; [intros now st t; apply live_In |].
  split; [intros now st; apply rate_limiter_step |].
  split; [|split; [|intros now st key'; apply rate_limiter_other_caller]].
  - intros times st Hw Hclose.
    destruct (issue_close request api_key iso times st) as [H _].
    + rewrite Hw. intros t t' [].
    + exact Hclose.
    + rewrite H, Hw. reflexivity.
  - intros t0 rest now st Hw Hlen Ht0 Hrest.
    destruct (rate_limiter_recovers request api_key (iso now) t0 rest now st
                Hw Hlen Ht0 Hrest) as (H1 & H2 & H3).
    split; [exact H1 |]. split; [exact H2 |].
    intros now' Hall. now apply H3.
Qed.

Lemma sliding_window_admission_witness :
  map is_ok (fst (issue caller "k" clock (repeat t0 31) initial))
  = repeat true 30 ++ [false].
Proof.
  rewrite (proj1 (proj2 (proj2 (proj2 (proj2
             (sliding_window_admission caller "k" clock)))))
             (repeat t0 31) initial eq_refl).
  - reflexivity.
  - intros t t' Ht Ht'.
    apply repeat_spec in Ht, Ht'. subst t t'. reflexivity.
Defined.

(** C3, evaluated where the code departs from it: the thirty-first
    request of a caller within the window is refused by an
    [AttributeError] raised while the block event is being built, so
    nothing is appended to [block_log] and no 429 is raised; in no state
    does a call change [block_log] or raise the 429. *)
Theorem denial_raises_before_logging :
  (forall request api_key now iso st,
      block_log (snd (rate_limiter request api_key now iso st)) = block_log st /\
      forall d, fst (rate_limiter request api_key now iso st)
                <> Raise (HTTPException 429 d)) /\
  length (live (t0 + 1) (window thirty_at_t0 (rate_key caller "k"))) = 30%nat /\
  fst (rate_limiter caller "k" (t0 + 1) (clock (t0 + 1)) thirty_at_t0)
  = Raise (AttributeError
             "type object 'datetime.datetime' has no attribute 'timezone'") /\
  block_log (snd (rate_limiter caller "k" (t0 + 1) (clock (t0 + 1))
                    thirty_at_t0)) = [].
Proof.
  split.
  - intros request api_key now iso st.
    destruct (Nat.lt_ge_cases
                (length (live now (window st (rate_key request api_key))))
                RATE_LIMIT) as [H|H].
    + rewrite (rate_limiter_allows _ _ _ _ _ H). cbn. split; [reflexivity |].
      discriminate.
    + rewrite (rate_limiter_refuses _ _ _ _ _ H). cbn. split; [reflexivity |].
      discriminate.
  - repeat split; vm_compute; reflexivity.
Qed.

End RateLimiterClaims.

(* ===================================================================== *)
(** * The handlers: upload rejections, two-phase commit, idempotence      *)
(* ===================================================================== *)

Section HandlerClaims.
Import Py Env Services Main Notions Samples.

(** C4, evaluated where the code departs from it: whatever [upload_file]
    raises, the two rejections included, reaches the caller as the 500
    [UPLOAD_FAILED] of the handler's own [except Exception]; a file
    sniffed as [application/zip] is answered that way, its temporary
    copy removed. *)
Theorem upload_rejections_reported_as_upload_failed :
  (forall A w file (rest : FileSystem -> result A * FileSystem) fs,
      match fst (upload_file w file rest fs) with
      | Ok _ => True
      | Raise e =>
          e = HTTPException 500
                (DErr "UPLOAD_FAILED"
                   "File upload failed due to an internal error.")
      end) /\
  FILE_SIZE_LIMITS !! magic_from_file toy_world "PK-archive" = None /\
  upload_file toy_world {| filename := "claims.zip"; content := "PK-archive" |}
    (fun fs => (Ok tt, fs)) ∅
  = (Raise (HTTPException 500
              (DErr "UPLOAD_FAILED"
                 "File upload failed due to an internal error.")),
     ∅).
Proof.
  split.
  - intros A w file rest fs.
    destruct (fst (upload_file w file rest fs)) eqn:E; [exact I |].
    exact (upload_failure_kind _ _ _ _ _ E).
  - split; vm_compute; reflexivity.
Qed.

(** C1. For a claim whose document is on disk: when extraction succeeds
    the parser returns a record, the first commit writes the claim with
    the raw text set and with the claim type and amount it had before;
    when neither field was found that is the only commit and the row
    keeps the raw text; when a field was found a second commit follows,
    writing the claim with the found fields over the first; when
    extraction fails the database is left as it was, without any
    commit. *)
Theorem analyze_claim_two_phase_commit w (fs : FileSystem) claim_id db
  claim path :
  rows db !! claim_id = Some claim ->
  document_path claim = Some path ->
  path <> "" ->
  is_Some (fs !! path) ->
  let out := analyze_claim w fs claim_id db in
  (forall text,
      extract_text_from_file w fs path = Ok text ->
      exists parsed,
        parse_claim_text (unicode w) text = Ok parsed /\
        let first := set_ocr_text text claim in
        let second := apply_parsed parsed first in
        fst out = Ok {| resp_claim_id := claim_id; source_file := path;
                        extracted_text := text |} /\
        ocr_text first = Some text /\
        Main.claim_type first = Main.claim_type claim /\
        Main.amount first = Main.amount claim /\
        ocr_text second = Some text /\
        Main.claim_type second
          = default (Main.claim_type claim) (Services.claim_type parsed) /\
        Main.amount second
          = default (Main.amount claim) (Services.amount parsed) /\
        (Services.claim_type parsed = None /\ Services.amount parsed = None ->
         journal (snd out) = journal db ++ [(claim_id, first)] /\
         rows (snd out) = <[claim_id := first]> (rows db)) /\
        (~ (Services.claim_type parsed = None /\
            Services.amount parsed = None) ->
         journal (snd out)
           = journal db ++ [(claim_id, first); (claim_id, second)] /\
         rows (snd out) = <[claim_id := second]> (rows db))) /\
  (forall e,
      extract_text_from_file w fs path = Raise e ->
      snd out = db /\ is_ok (fst out) = false).
Proof.
  intros Hrow Hdoc Hne Hex. cbn zeta.
  rewrite (analyze_claim_found _ _ _ _ _ _ Hrow Hdoc Hne Hex). split.
  - intros text Hext.
    destruct (parse_claim_text (unicode w) text) as [parsed|e] eqn:Hp.
    2:{ rewrite parse_claim_text_leftmost in Hp. discriminate. }
    exists parsed. split; [reflexivity |].
    rewrite (analyze_body_ok _ _ _ _ _ _ _ _ Hext Hp). cbn [fst snd try_except].
    destruct (apply_parsed_fields parsed (set_ocr_text text claim))
      as (_ & Ho & Hc & Ha).
    repeat (split; [first [reflexivity | assumption] |]).
    split.
    + intros [-> ->]. cbn [commit journal rows]. auto.
    + intros Hsome.
      assert (Hdb :
        match Services.claim_type parsed, Services.amount parsed with
        | None, None => commit claim_id (set_ocr_text text claim) db
        | _, _ =>
            commit claim_id (apply_parsed parsed (set_ocr_text text claim))
              (commit claim_id (set_ocr_text text claim) db)
        end
        = commit claim_id (apply_parsed parsed (set_ocr_text text claim))
            (commit claim_id (set_ocr_text text claim) db)).
      { destruct (Services.claim_type parsed), (Services.amount parsed);
          try reflexivity. exfalso. apply Hsome. auto. }
      rewrite Hdb. cbn [commit journal rows].
      rewrite <- app_assoc, insert_insert_eq. auto.
  - intros e Hext. rewrite (analyze_body_fails _ _ _ _ _ _ _ Hext).
    cbn [fst snd try_except is_ok]. auto.
Qed.

Lemma analyze_claim_two_phase_commit_witness :
  journal (snd (analyze_claim toy_world sample_fs 1 sample_db))
  = [(1, set_ocr_text travel_text (sample_claim "uploads/travel.txt"));
     (1, set_amount (float_of_Z 120)
           (set_claim_type "Travel"
              (set_ocr_text travel_text (sample_claim "uploads/travel.txt"))))]
  /\
  journal (snd (analyze_claim toy_world sample_fs 2 sample_db))
  = [(2, set_ocr_text "nothing to see" (sample_claim "uploads/notes.txt"))]
  /\
  snd (analyze_claim toy_world sample_fs 3 sample_db) = sample_db.
Proof.
  split; [|split].
  - destruct (proj1 (analyze_claim_two_phase_commit toy_world sample_fs 1
                       sample_db (sample_claim "uploads/travel.txt")
                       "uploads/travel.txt" eq_refl eq_refl
                       ltac:(discriminate) ltac:(eexists; reflexivity))
                travel_text eq_refl)
      as (parsed & Hp & _ & _ & _ & _ & _ & _ & _ & _ & H).
    injection Hp as <-.
    destruct H as [H _]; [intros [H _]; discriminate H |].
    exact H.
  - destruct (proj1 (analyze_claim_two_phase_commit toy_world sample_fs 2
                       sample_db (sample_claim "uploads/notes.txt")
                       "uploads/notes.txt" eq_refl eq_refl
                       ltac:(discriminate) ltac:(eexists; reflexivity))
                "nothing to see" eq_refl)
      as (parsed & Hp & _ & _ & _ & _ & _ & _ & _ & H & _).
    injection Hp as <-.
    destruct H as [H _]; [split; reflexivity |].
    exact H.
  - exact (proj1 (proj2 (analyze_claim_two_phase_commit toy_world sample_fs 3
                           sample_db (sample_claim "uploads/travel.pdf")
                           "uploads/travel.pdf" eq_refl eq_refl
                           ltac:(discriminate) ltac:(eexists; reflexivity))
                    _ eq_refl)).
Defined.


(** C9. Running the analysis a second time, right after the first,
    leaves every row as the first run left it (raw text, claim type and
    amount included) and returns what the first run returned.  For a
    claim whose document is on disk and yields a text, the first run
    leaves the row with that text and the fields found in it; the second
    run answers with the same text, derives the same fields, and commits
    as often as the first run did, each commit writing the row as it
    already stands. *)
Theorem analyze_claim_idempotent w (fs : FileSystem) claim_id db :
  let once := analyze_claim w fs claim_id db in
  let twice := analyze_claim w fs claim_id (snd once) in
  (rows (snd twice) = rows (snd once) /\ fst twice = fst once) /\
  (forall claim path text,
      rows db !! claim_id = Some claim ->
      document_path claim = Some path ->
      path <> "" ->
      is_Some (fs !! path) ->
      extract_text_from_file w fs path = Ok text ->
      exists parsed,
        parse_claim_text (unicode w) text = Ok parsed /\
        let final := apply_parsed parsed (set_ocr_text text claim) in
        fst once = Ok {| resp_claim_id := claim_id; source_file := path;
                         extracted_text := text |} /\
        fst twice = fst once /\
        rows (snd once) = <[claim_id := final]> (rows db) /\
        ocr_text final = Some text /\
        length (journal (snd once))
        = (length (journal db) + commits parsed)%nat /\
        journal (snd twice)
        = journal (snd once) ++ repeat (claim_id, final) (commits parsed)).
Proof.
  cbn zeta.
  destruct (rows db !! claim_id) as [claim|] eqn:Hrow.
  2:{ destruct (analyze_claim_not_found w fs claim_id db) as [H _];
        [now rewrite Hrow | rewrite !H].
      split; [split; reflexivity | discriminate]. }
  destruct (document_path claim) as [path|] eqn:Hdoc.
  2:{ destruct (analyze_claim_not_found w fs claim_id db) as [H _];
        [now rewrite Hrow, Hdoc | rewrite !H].
      split; [split; reflexivity |].
      intros c p t [= <-]. rewrite Hdoc. discriminate. }
  destruct (decide (path = "")) as [->|Hne].
  { destruct (analyze_claim_not_found w fs claim_id db) as [H _];
      [rewrite Hrow, Hdoc; auto | rewrite !H].
    split; [split; reflexivity |].
    intros c p t [= <-]. rewrite Hdoc. intros [= <-]. contradiction. }
  destruct (fs !! path) as [data|] eqn:Hfs.
  2:{ destruct (analyze_claim_not_found w fs claim_id db) as [H _];
        [rewrite Hrow, Hdoc; auto | rewrite !H].
      split; [split; reflexivity |].
      intros c p t [= <-]. rewrite Hdoc. intros [= <-] _. rewrite Hfs.
      intros Hs. destruct (is_Some_None Hs). }
  assert (Hex : is_Some (fs !! path)) by (rewrite Hfs; eauto).
  rewrite (analyze_claim_found _ _ _ _ _ _ Hrow Hdoc Hne Hex).
  destruct (extract_text_from_file w fs path) as [text|e] eqn:Hext.
  2:{ rewrite (analyze_body_fails _ _ _ _ _ _ _ Hext). cbn [fst snd].
      rewrite (analyze_claim_found _ _ _ _ _ _ Hrow Hdoc Hne Hex).
      rewrite (analyze_body_fails _ _ _ _ _ _ _ Hext).
      split; [auto |].
      intros c p t [= <-]. rewrite Hdoc. intros [= <-] _ _.
      rewrite Hext. discriminate. }
  destruct (parse_claim_text (unicode w) text) as [parsed|e] eqn:Hp.
  2:{ rewrite parse_claim_text_leftmost in Hp. discriminate. }
  rewrite (analyze_body_ok _ _ _ _ _ _ _ _ Hext Hp). cbn [fst snd].
  set (first := set_ocr_text text claim).
  set (final := apply_parsed parsed first).
  set (db1 := match Services.claim_type parsed, Services.amount parsed with
              | None, None => commit claim_id first db
              | _, _ => commit claim_id final (commit claim_id first db)
              end).
  assert (Hrows1 : rows db1 = <[claim_id := final]> (rows db)).
  { subst db1 final. unfold apply_parsed.
    destruct (Services.claim_type parsed), (Services.amount parsed);
      cbn [commit rows]; rewrite ?insert_insert_eq; reflexivity. }
  assert (Hrow1 : rows db1 !! claim_id = Some final)
    by (rewrite Hrows1; apply lookup_insert_eq).
  assert (Hdoc1 : document_path final = Some path).
  { subst final. destruct (apply_parsed_fields parsed first) as [-> _].
    exact Hdoc. }
  rewrite (analyze_claim_found _ _ _ _ _ _ Hrow1 Hdoc1 Hne Hex).
  rewrite (analyze_body_ok _ _ _ _ _ _ _ _ Hext Hp). cbn [fst snd try_except].
  assert (Hfix1 : set_ocr_text text final = final).
  { subst final first. unfold apply_parsed.
    destruct (Services.claim_type parsed), (Services.amount parsed);
      reflexivity. }
  assert (Hfix2 : apply_parsed parsed final = final).
  { subst final first. unfold apply_parsed.
    destruct (Services.claim_type parsed), (Services.amount parsed);
      reflexivity. }
  rewrite Hfix1, Hfix2.
  assert (Hjournal :
    journal (match Services.claim_type parsed, Services.amount parsed with
             | None, None => commit claim_id final db1
             | _, _ => commit claim_id final (commit claim_id final db1)
             end)
    = journal db1 ++ repeat (claim_id, final) (commits parsed)).
  { unfold commits.
    destruct (Services.claim_type parsed), (Services.amount parsed);
      cbn [commit journal repeat]; rewrite <- ?app_assoc; reflexivity. }
  split.
  - split; [|reflexivity].
    destruct (Services.claim_type parsed), (Services.amount parsed);
      cbn [commit rows]; rewrite Hrows1, ?insert_insert_eq; reflexivity.
  - intros c p t Hc Hd _ _ Ht.
    injection Hc as <-. rewrite Hdoc in Hd. injection Hd as <-.
    rewrite Hext in Ht. injection Ht as <-.
    exists parsed. split; [exact Hp |]. cbn zeta. fold first. fold final.
    split; [reflexivity |]. split; [reflexivity |].
    split; [exact Hrows1 |]. split.
    { subst final. destruct (apply_parsed_fields parsed first) as (_ & -> & _).
      reflexivity. }
    split; [|exact Hjournal].
    subst db1. unfold commits.
    destruct (Services.claim_type parsed), (Services.amount parsed);
      cbn [commit journal]; rewrite !length_app; cbn [length]; lia.
Qed.

Lemma analyze_claim_idempotent_witness :
  let once := analyze_claim toy_world sample_fs 1 sample_db in
  let twice := analyze_claim toy_world sample_fs 1 (snd once) in
  let final :=
    set_amount (float_of_Z 120)
      (set_claim_type "Travel"
         (set_ocr_text travel_text (sample_claim "uploads/travel.txt"))) in
  rows (snd once) !! 1 = Some final /\
  length (journal (snd once)) = 2%nat /\
  journal (snd twice) = journal (snd once) ++ [(1, final); (1, final)].
Proof.
  cbn zeta.
  destruct (proj2 (analyze_claim_idempotent toy_world sample_fs 1 sample_db)
              (sample_claim "uploads/travel.txt") "uploads/travel.txt"
              travel_text eq_refl eq_refl
              ltac:(discriminate) ltac:(eexists; reflexivity) eq_refl)
    as (parsed & Hp & _ & _ & Hrows & _ & Hlen & Hj).
  injection Hp as <-.
  split; [rewrite Hrows; apply lookup_insert_eq |].
  split; [exact Hlen | exact Hj].
Defined.

End HandlerClaims.

(* ===================================================================== *)
(** * Further properties of the field parser                              *)
(* ===================================================================== *)

Section ParserExtras.
Import Py Uni Re Services Notions Samples.

Lemma search_suffix p s g :
  search p s = Some g ->
  exists pre s', s = pre ++ s' /\ match_here p NotEntered s' = Some g.
Proof.
  induction s as [|a s IH]; cbn [search];
    destruct (match_here p NotEntered _) eqn:E; intros H.
  - injection H as ->. exists [], []. auto.
  - discriminate.
  - injection H as ->. exists [], (a :: s). auto.
  - destruct (IH H) as (pre & s' & -> & Hm). exists (a :: pre), s'. auto.
Qed.

(** A character demanded by the pattern is among those consumed. *)
Lemma accepts_One_in c p : forall g u r,
  In (Atom c One) p -> accepts p g u r -> exists a, In a u /\ c a = true.
Proof.
  induction p as [|e p IH]; intros g u r Hin H; [destruct Hin |].
  destruct Hin as [->|Hin].
  - cbn [accepts] in H. destruct H as (a & u' & -> & Hc & _).
    exists a. split; [now left | exact Hc].
  - destruct e as [c' q| |]; cbn [accepts] in H.
    + destruct q.
      * destruct H as (a & u' & -> & _ & H).
        destruct (IH _ _ _ Hin H) as (b & Hb & Hcb). exists b.
        split; [now right | exact Hcb].
      * destruct H as [H|(a & u' & -> & _ & H)];
          destruct (IH _ _ _ Hin H) as (b & Hb & Hcb); exists b;
          (split; [|exact Hcb]); [exact Hb | now right].
      * destruct H as (pre & u' & -> & _ & H).
        destruct (IH _ _ _ Hin H) as (b & Hb & Hcb). exists b.
        split; [apply in_or_app; now right | exact Hcb].
      * destruct H as (a & pre & u' & -> & _ & _ & H).
        destruct (IH _ _ _ Hin H) as (b & Hb & Hcb). exists b.
        split; [right; apply in_or_app; now right | exact Hcb].
    + eauto.
    + eauto.
Qed.

Lemma search_One_in c p s g :
  In (Atom c One) p -> search p s = Some g -> exists a, In a s /\ c a = true.
Proof.
  intros Hin Hs. apply search_suffix in Hs as (pre & s' & -> & Hm).
  apply match_here_sound in Hm as (u & rest & -> & Hu).
  destruct (accepts_One_in _ _ _ _ _ Hin Hu) as (a & Ha & Hc).
  exists a. split; [|exact Hc].
  apply in_or_app. right. apply in_or_app. now left.
Qed.

(** An ASCII character among the code points of a text is one of its
    bytes. *)
Lemma codepoints_ascii_in text (a : ascii) :
  (code a < 128)%N -> In (code a) (codepoints text) -> In a (chars text).
Proof.
  intros Ha Hin. unfold codepoints in Hin.
  apply decode_ascii_in in Hin; [|exact Ha].
  apply in_map_iff in Hin as (b & Hb & Hin).
  unfold code in Hb. apply (f_equal ascii_of_N) in Hb.
  rewrite !ascii_N_embedding in Hb. now subst b.
Qed.

Lemma colon_in_CLAIM_TYPE_RE U :
  In (Atom (ichar U ":") One) (CLAIM_TYPE_RE U).
Proof. unfold CLAIM_TYPE_RE. cbn. tauto. Qed.

Lemma colon_in_AMOUNT_RE U : In (Atom (ichar U ":") One) (AMOUNT_RE U).
Proof. unfold AMOUNT_RE. cbn. tauto. Qed.

Lemma point_in_AMOUNT_RE U : In (Atom (ichar U ".") One) (AMOUNT_RE U).
Proof. unfold AMOUNT_RE. cbn. tauto. Qed.

(** X1. A claim type returned by the parser is one nonempty word: its
    characters are all alphanumeric (in any script) or underscores, so a
    type written in several words is cut at the first blank or
    punctuation mark. *)
Theorem parsed_claim_type_is_one_word U text r ct :
  parse_claim_text U text = Ok r ->
  claim_type r = Some ct ->
  ct <> "" /\ forallb (is_word U) (codepoints ct) = true.
Proof. apply claim_type_word. Qed.

Lemma parsed_claim_type_is_one_word_witness :
  "Señor_1" <> "" /\ forallb (is_word ucd_excerpt) (codepoints "Señor_1") = true.
Proof.
  apply (parsed_claim_type_is_one_word ucd_excerpt
           "Claim Type: Señor_1 Owner"
           {| claim_type := Some "Señor_1"; amount := None |});
    vm_compute; reflexivity.
Defined.

(** X2. Labels count only when followed by a colon, and an amount only
    when it has a decimal point: from a text without any colon the parser
    returns neither field, and from a text without any point it returns
    no amount. *)
Theorem parse_needs_colon_and_point U text :
  (~ In ":"%char (chars text) ->
   parse_claim_text U text = Ok {| claim_type := None; amount := None |}) /\
  (~ In "."%char (chars text) ->
   exists ct,
     parse_claim_text U text = Ok {| claim_type := ct; amount := None |}).
Proof.
  rewrite parse_claim_text_leftmost. unfold first_group.
  rewrite <- !search_leftmost. split; intros Hno.
  - destruct (search (CLAIM_TYPE_RE U) (codepoints text)) as [g|] eqn:Hs.
    { destruct (search_One_in _ _ _ _ (colon_in_CLAIM_TYPE_RE U) Hs)
        as (a & Ha & Hc).
      apply ichar_colon in Hc as ->. exfalso. apply Hno.
      now apply codepoints_ascii_in. }
    destruct (search (AMOUNT_RE U) (codepoints text)) as [g|] eqn:Hs'.
    { destruct (search_One_in _ _ _ _ (colon_in_AMOUNT_RE U) Hs')
        as (a & Ha & Hc).
      apply ichar_colon in Hc as ->. exfalso. apply Hno.
      now apply codepoints_ascii_in. }
    reflexivity.
  - destruct (search (AMOUNT_RE U) (codepoints text)) as [g|] eqn:Hs'.
    { destruct (search_One_in _ _ _ _ (point_in_AMOUNT_RE U) Hs')
        as (a & Ha & Hc).
      apply ichar_point in Hc as ->. exfalso. apply Hno.
      now apply codepoints_ascii_in. }
    eauto.
Qed.

Lemma parse_needs_colon_and_point_witness :
  parse_claim_text ucd_excerpt "Claim Type Auto, Amount $120.00"
  = Ok {| claim_type := None; amount := None |}
  /\ exists ct,
      parse_claim_text ucd_excerpt "Claim Type: Auto Amount: $120"
      = Ok {| claim_type := ct; amount := None |}.
Proof.
  split.
  - apply (proj1 (parse_needs_colon_and_point ucd_excerpt
                    "Claim Type Auto, Amount $120.00")).
    vm_compute. intuition discriminate.
  - apply (proj2 (parse_needs_colon_and_point ucd_excerpt
                    "Claim Type: Auto Amount: $120")).
    vm_compute. intuition discriminate.
Defined.

End ParserExtras.

(* ===================================================================== *)
(** * Further properties of the text extractor                            *)
(* ===================================================================== *)

Section ExtractorExtras.
Import Py Env Services Notions Samples Runs.

(** X3. In the PDF route the first page whose OCR raises ends the
    extraction: the caller gets the failure built from that page's
    exception and none of the text of the pages before it, whatever the
    later pages hold. *)
Theorem pdf_page_failure_aborts w (fs : FileSystem) path data pre page post
  texts e :
  file_ext w path = ".pdf" ->
  fs !! path = Some data ->
  convert_from_path w data = Ok (pre ++ page :: post) ->
  Forall2 (fun pg s => image_to_string w pg = Ok s) pre texts ->
  image_to_string w page = Raise e ->
  extract_text_from_file w fs path = Raise (extraction_failed w e).
Proof.
  intros Hext Hfs Hconv Hpre Hpage.
  rewrite (extract_pdf _ _ _ Hext). unfold read_bytes. rewrite Hfs.
  cbn [bind]. rewrite Hconv. cbn [bind].
  rewrite (comprehension_raise _ _ _ _ _ _ Hpre Hpage). reflexivity.
Qed.

Lemma pdf_page_failure_aborts_witness :
  extract_text_from_file smudged_world smudged_fs "uploads/smudged.pdf"
  = Raise (HTTPException 500
             (DStr "Failed to extract text: tesseract failed")).
Proof.
  apply (pdf_page_failure_aborts smudged_world smudged_fs
           "uploads/smudged.pdf" "%PDFA?C" [Raster "A"] (Raster "?")
           [Raster "C"] ["A"] (LibraryError "tesseract failed")
           eq_refl eq_refl eq_refl
           ltac:(repeat constructor) eq_refl).
Defined.

(** X4. Extraction returns text only for a path that has a file behind
    it and one of the five extensions [.png], [.jpg], [.jpeg], [.pdf],
    [.txt] (in any letter case); a missing file or any other extension
    ends in the extractor's failure. *)
Theorem extraction_needs_file_and_extension w (fs : FileSystem) path :
  is_ok (extract_text_from_file w fs path) = true ->
  file_ext w path ∈ [".png"; ".jpg"; ".jpeg"; ".pdf"; ".txt"] /\
  is_Some (fs !! path).
Proof.
  intros Hok.
  destruct (decide (file_ext w path ∈ [".png"; ".jpg"; ".jpeg"; ".pdf"; ".txt"]))
    as [Hin|Hout].
  2:{ rewrite (extract_unsupported _ _ _ Hout) in Hok. discriminate. }
  split; [exact Hin |].
  destruct (fs !! path) as [data|] eqn:Hfs; [eauto |]. exfalso.
  assert (Hcase : file_ext w path ∈ [".png"; ".jpg"; ".jpeg"]
                  \/ file_ext w path = ".pdf" \/ file_ext w path = ".txt").
  { rewrite !elem_of_cons in Hin. rewrite !elem_of_cons.
    rewrite elem_of_nil in Hin. tauto. }
  destruct Hcase as [H|[H|H]].
  - rewrite (extract_image _ _ _ H) in Hok. unfold read_bytes in Hok.
    rewrite Hfs in Hok. discriminate.
  - rewrite (extract_pdf _ _ _ H) in Hok. unfold read_bytes in Hok.
    rewrite Hfs in Hok. discriminate.
  - rewrite (extract_txt _ _ _ H) in Hok. unfold read_bytes in Hok.
    rewrite Hfs in Hok. discriminate.
Qed.

Lemma extraction_needs_file_and_extension_witness :
  file_ext toy_world "uploads/travel.txt"
    ∈ [".png"; ".jpg"; ".jpeg"; ".pdf"; ".txt"] /\
  is_Some (sample_fs !! "uploads/travel.txt").
Proof.
  apply (extraction_needs_file_and_extension toy_world sample_fs
           "uploads/travel.txt").
  vm_compute. reflexivity.
Defined.

End ExtractorExtras.

(* ===================================================================== *)
(** * Further properties of the rate limiter, its guard and the admin view *)
(* ===================================================================== *)

Section LimiterExtras.
Import Py RateLimiter Auth Notions Samples Runs.

Lemma window_initial key : window initial key = [].
Proof. reflexivity. Qed.

Lemma live_length now w : (length (live now w) <= length w)%nat.
Proof. unfold live. apply List.filter_length_le. Qed.

(** One call keeps windows within the limit and leaves [block_log]
    alone. *)
Lemma step_bounded st c :
  (forall key, (length (window st key) <= RATE_LIMIT)%nat) ->
  forall key, (length (window (step st c) key) <= RATE_LIMIT)%nat.
Proof.
  intros Hst key. unfold step.
  destruct c as [request api_key now iso]. cbn [call_request call_key call_now call_iso].
  destruct (decide (key = rate_key request api_key)) as [->|Hne].
  2:{ rewrite rate_limiter_other_caller by exact Hne. apply Hst. }
  destruct (rate_limiter_step request api_key now iso st) as [Hlt Hge].
  destruct (Nat.lt_ge_cases
              (length (live now (window st (rate_key request api_key))))
              RATE_LIMIT) as [H|H].
  - destruct (Hlt H) as [_ ->]. rewrite length_app. cbn [length]. lia.
  - destruct (Hge H) as [_ ->].
    etransitivity; [apply live_length | apply Hst].
Qed.

Lemma step_block_log st c : block_log (step st c) = block_log st.
Proof.
  unfold step. destruct c as [request api_key now iso].
  cbn [call_request call_key call_now call_iso].
  destruct (Nat.lt_ge_cases
              (length (live now (window st (rate_key request api_key))))
              RATE_LIMIT) as [H|H].
  - now rewrite (rate_limiter_allows _ _ _ _ _ H).
  - now rewrite (rate_limiter_refuses _ _ _ _ _ H).
Qed.

Lemma run_bounded calls : forall st,
  (forall key, (length (window st key) <= RATE_LIMIT)%nat) ->
  forall key, (length (window (run calls st) key) <= RATE_LIMIT)%nat.
Proof.
  induction calls as [|c calls IH]; intros st Hst; [exact Hst |].
  cbn [run fold_left]. apply IH. now apply step_bounded.
Qed.

Lemma run_block_log calls : forall st,
  block_log (run calls st) = block_log st.
Proof.
  induction calls as [|c calls IH]; intros st; [reflexivity |].
  cbn [run fold_left]. fold (run calls (step st c)).
  now rewrite IH, step_block_log.
Qed.

(** X5. Whatever calls have been made since the module was loaded, by
    whichever callers and at whichever clock readings, no caller has more
    than thirty timestamps on record. *)
Theorem windows_stay_bounded calls key :
  (length (window (run calls initial) key) <= 30)%nat.
Proof.
  apply (run_bounded calls initial). intros k. rewrite window_initial.
  cbn. unfold RATE_LIMIT. lia.
Qed.

Lemma step_dom st c :
  dom (call_log (step st c))
  = dom (call_log st) ∪ {[ rate_key (call_request c) (call_key c) ]}.
Proof.
  unfold step. destruct c as [request api_key now iso].
  cbn [call_request call_key call_now call_iso].
  destruct (Nat.lt_ge_cases
              (length (live now (window st (rate_key request api_key))))
              RATE_LIMIT) as [H|H].
  - rewrite (rate_limiter_allows _ _ _ _ _ H). cbn [snd call_log].
    rewrite dom_insert_L. apply (comm_L (∪)).
  - rewrite (rate_limiter_refuses _ _ _ _ _ H). cbn [snd call_log].
    rewrite dom_insert_L. apply (comm_L (∪)).
Qed.

(** X6. [call_log] never loses a caller: after any calls its keys are the
    keys it had before together with the key of every call made,
    refused calls included. *)
Theorem call_log_only_grows calls st :
  dom (call_log (run calls st))
  = dom (call_log st)
    ∪ list_to_set (map (fun c => rate_key (call_request c) (call_key c)) calls).
Proof.
  revert st. induction calls as [|c calls IH]; intros st.
  - cbn [run fold_left map list_to_set]. now rewrite (right_id_L ∅ (∪)).
  - cbn [run fold_left]. fold (run calls (step st c)).
    rewrite IH, step_dom. cbn [map list_to_set]. now rewrite (assoc_L (∪)).
Qed.

(** ** The API-key guard *)

Lemma require_api_key_ok env header key :
  require_api_key env header = Ok key <->
  env !! "API_KEY" = Some key /\ key <> "" /\ header = Some key.
Proof.
  unfold require_api_key, getenv.
  destruct (env !! "API_KEY") as [expected|], header as [k|];
    try (split; [discriminate | intros (H & _ & H'); discriminate]).
  destruct (decide (expected = "")) as [->|Hne].
  { rewrite bool_decide_eq_true_2 by reflexivity. cbn [orb].
    split; [discriminate | intros ([= <-] & Hk & _); now destruct Hk]. }
  rewrite (bool_decide_eq_false_2 _ Hne). cbn [orb].
  destruct (decide (k = expected)) as [->|Hk].
  - rewrite bool_decide_eq_true_2 by reflexivity. cbn [negb].
    split.
    + intros [= <-]. auto.
    + intros ([= <-] & _ & _). reflexivity.
  - rewrite (bool_decide_eq_false_2 _ Hk). cbn [negb].
    split; [discriminate |]. intros ([= <-] & _ & [= ->]). now destruct Hk.
Qed.

Lemma require_api_key_raises env header e :
  require_api_key env header = Raise e ->
  e = HTTPException 403 (DStr "Invalid or missing API Key").
Proof.
  unfold require_api_key, getenv.
  destruct (env !! "API_KEY") as [expected|], header as [k|];
    try (now intros [= <-]).
  destruct (_ || _); [now intros [= <-] | discriminate].
Qed.

(** X7. [require_api_key] lets a request through exactly when [API_KEY]
    is set to a nonempty string and the [X-API-Key] header equals it, and
    then returns that key; in every other case (variable unset or empty,
    header absent or different) it raises the 403. *)
Theorem require_api_key_accepts_only_the_configured_key env header :
  (forall key,
      require_api_key env header = Ok key <->
      env !! "API_KEY" = Some key /\ key <> "" /\ header = Some key) /\
  (forall e,
      require_api_key env header = Raise e ->
      e = HTTPException 403 (DStr "Invalid or missing API Key")) /\
  (env !! "API_KEY" = None \/ env !! "API_KEY" = Some "" ->
   is_ok (require_api_key env header) = false).
Proof.
  split; [intros key; apply require_api_key_ok |].
  split; [intros e; apply require_api_key_raises |].
  intros Hunset.
  destruct (require_api_key env header) as [key|e] eqn:E; [|reflexivity].
  apply require_api_key_ok in E as (Hk & Hne & _).
  destruct Hunset as [H|H]; rewrite H in Hk; [discriminate |].
  injection Hk as <-. now destruct Hne.
Qed.

Lemma require_api_key_accepts_only_the_configured_key_witness :
  require_api_key sample_env (Some "s3cret") = Ok "s3cret" /\
  is_ok (require_api_key ∅ (Some "")) = false.
Proof.
  split.
  - apply (proj1 (require_api_key_accepts_only_the_configured_key
                    sample_env (Some "s3cret")) "s3cret").
    repeat split. discriminate.
  - apply (proj2 (proj2 (require_api_key_accepts_only_the_configured_key
                           ∅ (Some "")))).
    left. reflexivity.
Defined.

Lemma visit_keys env st v :
  set_Forall (fun key => env !! "API_KEY" = Some key.2) (dom (call_log st)) ->
  set_Forall (fun key => env !! "API_KEY" = Some key.2)
    (dom (call_log (visit env st v))).
Proof.
  intros Hst. unfold visit, auth_stack.
  destruct (require_api_key env (visit_header v)) as [key|e] eqn:E;
    [|exact Hst].
  apply require_api_key_ok in E as (Hk & _ & _).
  pose proof (step_dom st {| call_request := visit_request v; call_key := key;
                             call_now := visit_now v;
                             call_iso := visit_iso v |}) as Hd.
  unfold step in Hd. cbn [call_request call_key call_now call_iso] in Hd.
  rewrite Hd. intros k [Hin|Hin]%elem_of_union; [now apply Hst |].
  apply elem_of_singleton in Hin as ->. exact Hk.
Qed.

Lemma visit_rejected env st v :
  is_ok (require_api_key env (visit_header v)) = false ->
  visit env st v = st.
Proof.
  intros H. unfold visit, auth_stack.
  now destruct (require_api_key env (visit_header v)).
Qed.

(** X8. Behind [auth_stack], a request that fails the API-key check
    leaves the limiter's state as it was, so it is not counted against
    anybody; and every caller key ever recorded carries the configured
    [API_KEY], so callers are told apart by their IP address alone. *)
Theorem unauthenticated_requests_are_not_counted env :
  (forall st v,
      is_ok (require_api_key env (visit_header v)) = false ->
      visit env st v = st) /\
  (forall vs,
      set_Forall (fun key => env !! "API_KEY" = Some key.2)
        (dom (call_log (visits env vs initial)))).
Proof.
  split; [apply visit_rejected |].
  intros vs.
  assert (H : forall st,
             set_Forall (fun key => env !! "API_KEY" = Some key.2)
               (dom (call_log st)) ->
             set_Forall (fun key => env !! "API_KEY" = Some key.2)
               (dom (call_log (visits env vs st)))).
  { induction vs as [|v vs IH]; intros st Hst; [exact Hst |].
    cbn [visits fold_left]. apply IH. now apply visit_keys. }
  apply H. intros k Hk. cbn in Hk. rewrite dom_empty_L in Hk.
  now apply not_elem_of_empty in Hk.
Qed.

Lemma unauthenticated_requests_are_not_counted_witness :
  visit sample_env thirty_at_t0
    {| visit_request := caller; visit_header := Some "guess";
       visit_now := t0 + 1; visit_iso := clock (t0 + 1) |}
  = thirty_at_t0.
Proof.
  apply (proj1 (unauthenticated_requests_are_not_counted sample_env)).
  vm_compute. reflexivity.
Defined.

(** ** The admin view of the block log *)

Lemma get_rate_limit_block_log_ok env header st :
  is_ok (get_rate_limit_block_log env header st) = true <->
  exists key,
    header = Some key /\ env !! "API_KEY" = Some key /\ key <> "" /\
    (env !! "ADMIN_KEY" = None \/ env !! "ADMIN_KEY" = Some ""
     \/ env !! "ADMIN_KEY" = Some key).
Proof.
  unfold get_rate_limit_block_log, getenv.
  destruct (require_api_key env header) as [key|e] eqn:E; cbn [bind].
  - apply require_api_key_ok in E as (Hk & Hne & ->).
    destruct (env !! "ADMIN_KEY") as [admin|] eqn:Ha.
    + destruct (decide (admin = "")) as [->|Hadm].
      { rewrite bool_decide_eq_true_2 by reflexivity. cbn.
        split; [|reflexivity]. intros _. exists key. auto 6. }
      rewrite (bool_decide_eq_false_2 _ Hadm). cbn [negb andb].
      destruct (decide (key = admin)) as [->|Hka].
      * rewrite bool_decide_eq_true_2 by reflexivity. cbn.
        split; [|reflexivity]. intros _. exists admin. auto 7.
      * rewrite (bool_decide_eq_false_2 _ Hka). cbn. split; [discriminate |].
        intros (k & [= <-] & _ & _ & [H|[H|H]]); try discriminate;
          injection H as ->; contradiction.
    + cbn. split; [|reflexivity]. intros _. exists key. auto.
  - cbn. split; [discriminate |].
    intros (k & -> & Hk & Hne & _).
    assert (H : require_api_key env (Some k) = Ok k)
      by (apply require_api_key_ok; auto).
    rewrite H in E. discriminate.
Qed.

(** X9. The block log is served exactly to a request whose header equals
    a nonempty [API_KEY], and only while [ADMIN_KEY] is unset, empty or
    equal to [API_KEY]; once [ADMIN_KEY] is set to something else nobody
    is served, the holder of [ADMIN_KEY] included.  What is served after
    any calls to the limiter is the empty list. *)
Theorem block_log_view env header :
  (forall st,
      is_ok (get_rate_limit_block_log env header st) = true <->
      exists key,
        header = Some key /\ env !! "API_KEY" = Some key /\ key <> "" /\
        (env !! "ADMIN_KEY" = None \/ env !! "ADMIN_KEY" = Some ""
         \/ env !! "ADMIN_KEY" = Some key)) /\
  (forall st admin,
      env !! "ADMIN_KEY" = Some admin -> admin <> "" ->
      env !! "API_KEY" <> Some admin ->
      is_ok (get_rate_limit_block_log env header st) = false) /\
  (forall calls events,
      get_rate_limit_block_log env header (run calls initial) = Ok events ->
      events = []).
Proof.
  split; [intros st; apply get_rate_limit_block_log_ok |]. split.
  - intros st admin Ha Hne Hdiff.
    destruct (is_ok (get_rate_limit_block_log env header st)) eqn:E;
      [|reflexivity].
    apply get_rate_limit_block_log_ok in E
      as (key & _ & Hk & _ & [H|[H|H]]); rewrite Ha in H;
      try discriminate.
    + injection H as ->. contradiction.
    + injection H as ->. contradiction.
  - intros calls events. unfold get_rate_limit_block_log.
    rewrite run_block_log. cbn [initial block_log].
    destruct (require_api_key env header); cbn [bind]; [|discriminate].
    destruct (getenv env "ADMIN_KEY"); [destruct (_ && _)|];
      now intros [= <-].
Qed.

Lemma block_log_view_witness :
  is_ok (get_rate_limit_block_log sample_env (Some "r00t") thirty_at_t0) = false
  /\ is_ok (get_rate_limit_block_log sample_env (Some "s3cret") thirty_at_t0)
     = false.
Proof.
  split.
  - apply (proj1 (proj2 (block_log_view sample_env (Some "r00t")))
             thirty_at_t0 "r00t"); [reflexivity | discriminate | discriminate].
  - apply (proj1 (proj2 (block_log_view sample_env (Some "s3cret")))
             thirty_at_t0 "r00t"); [reflexivity | discriminate | discriminate].
Defined.

End LimiterExtras.

(* ===================================================================== *)
(** * Further properties of the handlers                                  *)
(* ===================================================================== *)

Section HandlerExtras.
Import Py Env Services Main Auth Crud Notions Samples Runs.

(** Every run of [analyze_claim] is of one of two shapes. *)
Lemma analyze_claim_cases w (fs : FileSystem) claim_id db :
  (snd (analyze_claim w fs claim_id db) = db /\
   exists e, fst (analyze_claim w fs claim_id db) = Raise e /\
             analysis_error claim_id e)
  \/
  (exists claim path text parsed,
      rows db !! claim_id = Some claim /\
      document_path claim = Some path /\
      extract_text_from_file w fs path = Ok text /\
      parse_claim_text (unicode w) text = Ok parsed /\
      analyze_claim w fs claim_id db
      = (Ok {| resp_claim_id := claim_id; source_file := path;
               extracted_text := text |},
         match Services.claim_type parsed, Services.amount parsed with
         | None, None => commit claim_id (set_ocr_text text claim) db
         | _, _ =>
             commit claim_id (apply_parsed parsed (set_ocr_text text claim))
               (commit claim_id (set_ocr_text text claim) db)
         end)).
Proof.
  unfold analysis_error.
  destruct (rows db !! claim_id) as [claim|] eqn:Hrow.
  2:{ left. unfold analyze_claim, get_claim_or_404. rewrite Hrow.
      cbn [fst snd]. eauto. }
  destruct (document_path claim) as [path|] eqn:Hdoc.
  2:{ left. unfold analyze_claim, get_claim_or_404. rewrite Hrow, Hdoc.
      cbn [fst snd]. eauto 6. }
  destruct (bool_decide (path = "") || negb (exists_ fs path)) eqn:Hb.
  { left. unfold analyze_claim, get_claim_or_404. rewrite Hrow, Hdoc, Hb.
    cbn [fst snd]. eauto 6. }
  apply orb_false_elim in Hb as [Hne Hex].
  apply bool_decide_eq_false_1 in Hne.
  apply negb_false_iff in Hex. unfold exists_ in Hex.
  apply bool_decide_eq_true_1 in Hex.
  rewrite (analyze_claim_found _ _ _ _ _ _ Hrow Hdoc Hne Hex).
  destruct (extract_text_from_file w fs path) as [text|e] eqn:Hext.
  2:{ left. rewrite (analyze_body_fails _ _ _ _ _ _ _ Hext).
      cbn [fst snd try_except]. eauto 6. }
  destruct (parse_claim_text (unicode w) text) as [parsed|e] eqn:Hp.
  2:{ rewrite parse_claim_text_leftmost in Hp. discriminate. }
  right. exists claim, path, text, parsed.
  rewrite (analyze_body_ok _ _ _ _ _ _ _ _ Hext Hp). cbn [fst snd try_except].
  auto 6.
Qed.

(** The database after a successful analysis, from the claim loaded. *)
Lemma analysis_rows parsed text claim claim_id db :
  rows (match Services.claim_type parsed, Services.amount parsed with
        | None, None => commit claim_id (set_ocr_text text claim) db
        | _, _ =>
            commit claim_id (apply_parsed parsed (set_ocr_text text claim))
              (commit claim_id (set_ocr_text text claim) db)
        end)
  = <[claim_id := apply_parsed parsed (set_ocr_text text claim)]> (rows db).
Proof.
  unfold apply_parsed.
  destruct (Services.claim_type parsed), (Services.amount parsed);
    cbn [commit rows]; rewrite ?insert_insert_eq; reflexivity.
Qed.

(** X10. A failed analysis commits nothing: rows and journal are those
    from before the call.  For a claim id within the range of the
    database driver the failure is one of three answers: 404 for an
    unknown claim, 404 for a claim without a document on disk, 500 for
    anything that goes wrong during extraction. *)
Theorem analysis_failure_changes_nothing w (fs : FileSystem) claim_id db e :
  fst (analyze_claim w fs claim_id db) = Raise e ->
  snd (analyze_claim w fs claim_id db) = db /\
  (int64 claim_id -> analysis_error claim_id e).
Proof.
  intros Hfail.
  destruct (analyze_claim_cases w fs claim_id db)
    as [(Hdb & e' & He' & Herr)|(claim & path & text & parsed & _ & _ & _ & _ & H)].
  - rewrite He' in Hfail. injection Hfail as <-. auto.
  - rewrite H in Hfail. discriminate.
Qed.

Lemma analysis_failure_changes_nothing_witness :
  snd (analyze_claim toy_world sample_fs 99 sample_db) = sample_db /\
  analysis_error 99
    (HTTPException 404 (DErr "CLAIM_NOT_FOUND" "No claim found with ID 99")).
Proof.
  destruct (analysis_failure_changes_nothing toy_world sample_fs 99 sample_db
              (HTTPException 404
                 (DErr "CLAIM_NOT_FOUND" "No claim found with ID 99"))
              eq_refl) as [Hdb Herr].
  split; [exact Hdb |]. apply Herr. unfold int64. lia.
Defined.

(** X11. Analysing a claim creates and deletes no row, leaves every
    other claim's row as it was, leaves the analysed claim's name,
    description, document path, file name, file type, file size and
    status as they were, and commits at most twice, each time that
    claim's row. *)
Theorem analysis_touches_one_claim w (fs : FileSystem) claim_id db :
  let db' := snd (analyze_claim w fs claim_id db) in
  dom (rows db') = dom (rows db) /\
  (forall other, other <> claim_id -> rows db' !! other = rows db !! other) /\
  (forall c c',
      rows db !! claim_id = Some c -> rows db' !! claim_id = Some c' ->
      claimant_name c' = claimant_name c /\
      description c' = description c /\
      document_path c' = document_path c /\
      file_name c' = file_name c /\
      file_type c' = file_type c /\
      file_size c' = file_size c /\
      status c' = status c) /\
  (exists written,
      journal db' = journal db ++ written /\ (length written <= 2)%nat /\
      Forall (fun entry => entry.1 = claim_id) written).
Proof.
  cbn zeta.
  destruct (analyze_claim_cases w fs claim_id db)
    as [(Hdb & _)|(claim & path & text & parsed & Hrow & _ & _ & _ & H)].
  - rewrite Hdb. split; [reflexivity |]. split; [reflexivity |]. split.
    + intros c c' Hc Hc'. rewrite Hc in Hc'. injection Hc' as <-. auto 8.
    + exists []. rewrite app_nil_r. cbn. auto.
  - rewrite H. cbn [snd]. rewrite analysis_rows. split.
    { apply dom_insert_lookup_L. rewrite Hrow. eauto. }
    split.
    { intros other Hne. now apply lookup_insert_ne. }
    split.
    { intros c c' Hc Hc'. rewrite Hrow in Hc. injection Hc as <-.
      rewrite lookup_insert_eq in Hc'. injection Hc' as <-.
      unfold apply_parsed.
      destruct (Services.claim_type parsed), (Services.amount parsed);
        cbn; auto 8. }
    destruct (Services.claim_type parsed), (Services.amount parsed);
      cbn [commit journal]; rewrite <- ?app_assoc;
      (eexists; split; [reflexivity |]); cbn [app length];
      (split; [lia | repeat constructor]).
Qed.

Lemma analysis_touches_one_claim_witness :
  rows (snd (analyze_claim toy_world sample_fs 1 sample_db)) !! 2
  = rows sample_db !! 2.
Proof.
  apply (proj1 (proj2 (analysis_touches_one_claim toy_world sample_fs 1
                         sample_db)) 2).
  discriminate.
Defined.

(** X12. A successful analysis answers with the id asked for, the
    claim's document path and the text extracted from that path, and the
    text in the answer is the raw text the claim's row then holds. *)
Theorem analysis_response_matches_row w (fs : FileSystem) claim_id db resp :
  fst (analyze_claim w fs claim_id db) = Ok resp ->
  resp_claim_id resp = claim_id /\
  exists c c',
    rows db !! claim_id = Some c /\
    document_path c = Some (source_file resp) /\
    extract_text_from_file w fs (source_file resp) = Ok (extracted_text resp) /\
    rows (snd (analyze_claim w fs claim_id db)) !! claim_id = Some c' /\
    ocr_text c' = Some (extracted_text resp).
Proof.
  intros Hok.
  destruct (analyze_claim_cases w fs claim_id db)
    as [(_ & e & He & _)|(claim & path & text & parsed & Hrow & Hdoc & Hext & _ & H)].
  - rewrite He in Hok. discriminate.
  - rewrite H in Hok |- *. cbn [fst snd] in *. injection Hok as <-.
    cbn [resp_claim_id source_file extracted_text]. split; [reflexivity |].
    exists claim, (apply_parsed parsed (set_ocr_text text claim)).
    rewrite analysis_rows, lookup_insert_eq.
    destruct (apply_parsed_fields parsed (set_ocr_text text claim))
      as (_ & Ho & _).
    rewrite Ho. auto.
Qed.

Lemma analysis_response_matches_row_witness :
  exists c c',
    rows sample_db !! 1 = Some c /\
    document_path c = Some "uploads/travel.txt" /\
    extract_text_from_file toy_world sample_fs "uploads/travel.txt"
    = Ok travel_text /\
    rows (snd (analyze_claim toy_world sample_fs 1 sample_db)) !! 1 = Some c' /\
    ocr_text c' = Some travel_text.
Proof.
  apply (proj2 (analysis_response_matches_row toy_world sample_fs 1 sample_db
                  {| resp_claim_id := 1; source_file := "uploads/travel.txt";
                     extracted_text := travel_text |} eq_refl)).
Defined.



(** ** Deleting and creating claims *)

Lemma delete_claim_found removable (fs : FileSystem) claim_id db claim :
  rows db !! claim_id = Some claim ->
  delete_claim removable fs claim_id db
  = (Ok claim_id,
     delete_file_if_exists removable (document_path claim) fs,
     service_delete_claim claim_id db).
Proof.
  intros Hrow. unfold delete_claim, get_claim_or_404. now rewrite Hrow.
Qed.


Lemma delete_file_removed removable (fs : FileSystem) path :
  path <> "" -> removable path = true ->
  delete_file_if_exists removable (Some path) fs !! path = None.
Proof.
  intros Hne Hrm. unfold delete_file_if_exists, exists_.
  rewrite (bool_decide_eq_false_2 _ Hne). cbn [negb andb].
  destruct (fs !! path) as [data|] eqn:Hfs.
  - rewrite bool_decide_eq_true_2 by eauto. rewrite Hrm.
    apply lookup_delete_eq.
  - rewrite bool_decide_eq_false_2 by (apply is_Some_None). exact Hfs.
Qed.





(** X15. Documents are shared by path: when two claims point at the same
    stored file, deleting one of them removes the file, and analysing the
    other then answers 404, document not found, without any commit. *)
Theorem deleting_a_claim_orphans_its_twin w removable (fs : FileSystem)
  id1 id2 db c1 c2 path :
  id1 <> id2 ->
  rows db !! id1 = Some c1 -> rows db !! id2 = Some c2 ->
  document_path c1 = Some path -> document_path c2 = Some path ->
  path <> "" -> removable path = true ->
  let out := delete_claim removable fs id1 db in
  analyze_claim w out.1.2 id2 out.2
  = (Raise (HTTPException 404
              (DStr "Document file not found for this claim.")),
     out.2).
Proof.
  intros Hne Hr1 Hr2 Hd1 Hd2 Hpath Hrm. cbn zeta.
  rewrite (delete_claim_found _ _ _ _ _ Hr1). cbn [fst snd].
  unfold analyze_claim, get_claim_or_404. cbn [service_delete_claim rows].
  rewrite lookup_delete_ne by exact Hne. rewrite Hr2, Hd2, Hd1.
  unfold exists_. rewrite (delete_file_removed _ _ _ Hpath Hrm).
  rewrite (bool_decide_eq_false_2 (is_Some None)) by (apply is_Some_None).
  cbn [negb]. rewrite orb_true_r. reflexivity.
Qed.

Lemma deleting_a_claim_orphans_its_twin_witness :
  is_ok (analyze_claim toy_world sample_fs 2 shared_db).1 = true /\
  analyze_claim toy_world
    (delete_claim (fun _ => true) sample_fs 1 shared_db).1.2 2
    (delete_claim (fun _ => true) sample_fs 1 shared_db).2
  = (Raise (HTTPException 404
              (DStr "Document file not found for this claim.")),
     (delete_claim (fun _ => true) sample_fs 1 shared_db).2).
Proof.
  split; [vm_compute; reflexivity |].
  apply (deleting_a_claim_orphans_its_twin toy_world (fun _ => true)
           sample_fs 1 2 shared_db (sample_claim "uploads/travel.txt")
           (sample_claim "uploads/travel.txt") "uploads/travel.txt");
    first [reflexivity | discriminate].
Defined.

(** X16. [create_claim_from_json] never creates a claim: once the API
    key is accepted, the call to [create_claim] passes a keyword
    [document_path] that the function does not have, so it ends in a
    [TypeError] before anything is added; the database is left as it
    was.  (The positional call made by [upload_file] does bind.) *)
Theorem create_claim_from_json_never_creates env header payload new_id db :
  create_claim_from_json env header payload new_id db
  = (match require_api_key env header with
     | Ok _ =>
         RaisedTypeError
           "create_claim() got an unexpected keyword argument 'document_path'"
     | Raise e => Raised e
     end, db)
  /\ bind_arguments "create_claim" create_claim_params 6 [] = None.
Proof.
  split; [|vm_compute; reflexivity].
  unfold create_claim_from_json.
  destruct (require_api_key env header); [|reflexivity].
  assert (H : bind_arguments "create_claim" create_claim_params 0
                ["db"; "claimant_name"; "claim_type"; "amount"; "description";
                 "document_path"]
              = Some "create_claim() got an unexpected keyword argument 'document_path'")
    by (vm_compute; reflexivity).
  now rewrite H.
Qed.

End HandlerExtras.
